(** * apisecure: session lifecycle and abuse control

    A shallow embedding of [src/auth/sessionManagement.ts],
    [src/protection/rateLimiter.ts] and [src/utils/config.ts], followed by
    the properties of the specification that were checked against it.

    Conventions of the embedding:
    - a JavaScript [Map<string, T>] is a [gmap string T];
    - timestamps and counters are integers ([Z]): [Date.now()] returns whole
      milliseconds and every counter is obtained from 0 by [+ 1];
    - every read of the clock ([Date.now()]) is an explicit argument of the
      operation that performs it, one argument per read, in program order;
    - the 32 random bytes drawn by [create] are an explicit argument too;
    - a method that mutates [this] returns the new state next to its result. *)

From stdpp Require Import gmap strings list fin_maps pretty.
From Stdlib Require Import ZArith Lia Ascii.

Open Scope Z_scope.

(** ** Configuration ([src/utils/config.ts]) *)

Record RateLimitRule := mkRule { windowMs : Z; maxRequests : Z }.

(** The fields of [SecurityConfig] that the session and rate-limiting code
    reads, as they read them: a number of milliseconds and a rule.  The
    object that the configuration manager holds is [ConfigManager.Config]
    below. *)
Record SecurityConfig := mkConfig {
  sessionTTL : Z;
  defaultRateLimit : RateLimitRule
}.

Definition defaultConfig : SecurityConfig :=
  {| sessionTTL := 24 * 60 * 60 * 1000;
     defaultRateLimit := {| windowMs := 15 * 60 * 1000; maxRequests := 100 |} |}.

(** ** Sessions ([src/auth/sessionManagement.ts]) *)

(** Values stored under the keys of [Session.data] (typed [any]). *)
Inductive JsValue :=
| JsNull
| JsBool (b : bool)
| JsNum (n : Z)
| JsStr (s : string).

Record Session := mkSession {
  session_id : string;
  userId : string;
  createdAt : Z;
  expiresAt : Z;
  data : gmap string JsValue
}.

Definition set_data (d : gmap string JsValue) (s : Session) : Session :=
  {| session_id := session_id s; userId := userId s; createdAt := createdAt s;
     expiresAt := expiresAt s; data := d |}.

Definition set_expiresAt (e : Z) (s : Session) : Session :=
  {| session_id := session_id s; userId := userId s; createdAt := createdAt s;
     expiresAt := e; data := data s |}.

(** The object spread [{ ...a, ...b }]: the keys of [b] win. *)
Definition spread (a b : gmap string JsValue) : gmap string JsValue := b ∪ a.

Module InMemorySessionStore.

(** The private field [sessions]. *)
Abbreviation t := (gmap string Session).

Definition new : t := ∅.

(** [create]: [config] is what [getConfig()] returns when the method runs,
    [sessionId] is [randomBytes(32).toString("hex")]. *)
Definition create (config : SecurityConfig) (sessionId : string) (now : Z)
    (uid : string) (d : gmap string JsValue) (sessions : t) : Session * t :=
  let session :=
    {| session_id := sessionId; userId := uid; createdAt := now;
       expiresAt := now + sessionTTL config; data := d |} in
  (session, <[sessionId := session]> sessions).

Definition delete (sessionId : string) (sessions : t) : t :=
  base.delete sessionId sessions.

Definition get (now : Z) (sessionId : string) (sessions : t)
  : option Session * t :=
  match sessions !! sessionId with
  | None => (None, sessions)
  | Some session =>
      if expiresAt session <? now
      then (None, delete sessionId sessions)
      else (Some session, sessions)
  end.

Definition update (now : Z) (sessionId : string) (d : gmap string JsValue)
    (sessions : t) : t :=
  match get now sessionId sessions with
  | (Some session, sessions') =>
      <[sessionId := set_data (spread (data session) d) session]> sessions'
  | (None, sessions') => sessions'
  end.

(** [cleanup]: the loop deletes the entry it is visiting and nothing else,
    and the test of an entry reads that entry only, so the loop keeps
    exactly the entries that fail the test. *)
Definition cleanup (now : Z) (sessions : t) : t :=
  filter (λ kv, ¬ (expiresAt kv.2 < now)) sessions.

(** [refresh] reads the table directly, not through [get]. *)
Definition refresh (config : SecurityConfig) (now : Z) (sessionId : string)
    (sessions : t) : t :=
  match sessions !! sessionId with
  | Some session =>
      <[sessionId := set_expiresAt (now + sessionTTL config) session]> sessions
  | None => sessions
  end.

End InMemorySessionStore.

(** ** Rate limiting ([src/protection/rateLimiter.ts]) *)

Record RateLimitInfo := mkInfo { count : Z; resetTime : Z }.

Module RateLimiter.

Record t := mk {
  storage : gmap string RateLimitInfo;
  rules : list RateLimitRule
}.

(** The constructor: [config] is what [getConfig()] returns when it runs. *)
Definition new (config : SecurityConfig) (rs : list RateLimitRule) : t :=
  {| storage := ∅;
     rules := if (0 <? length rs)%nat then rs else [defaultRateLimit config] |}.

(** The storage key of a rule for a client: [`${clientId}:${rule.windowMs}`].
    A template literal prints an integer in decimal, with a leading [-] when
    it is negative, which is what [pretty] does. *)
Definition key (clientId : string) (rule : RateLimitRule) : string :=
  clientId +:+ ":" +:+ pretty (windowMs rule).

(** [cleanup] deletes the rows whose window has closed (a filter, for the
    same reason as the session sweep). *)
Definition cleanup (now : Z) (st : gmap string RateLimitInfo)
  : gmap string RateLimitInfo :=
  filter (λ kv, ¬ (now > resetTime kv.2)) st.

(** The row that the callback of [forEach] writes back for [rule]. *)
Definition bump (now : Z) (rule : RateLimitRule) (row : option RateLimitInfo)
  : RateLimitInfo :=
  let limitInfo :=
    default {| count := 0; resetTime := now + windowMs rule |} row in
  if now >? resetTime limitInfo
  then {| count := 1; resetTime := now + windowMs rule |}
  else {| count := count limitInfo + 1; resetTime := resetTime limitInfo |}.

(** One run of the callback of [forEach], on the storage and the local
    variable [isAllowed]. *)
Definition visit (now : Z) (clientId : string)
    (acc : gmap string RateLimitInfo * bool) (rule : RateLimitRule)
  : gmap string RateLimitInfo * bool :=
  let limitInfo := bump now rule (acc.1 !! key clientId rule) in
  (<[key clientId rule := limitInfo]> acc.1,
   if count limitInfo >? maxRequests rule then false else acc.2).

(** [isAllowed]: [now_cleanup] is the clock read of [cleanup], [now] the one
    that follows it. *)
Definition isAllowed (now_cleanup now : Z) (clientId : string) (rl : t)
  : bool * t :=
  let acc :=
    foldl (visit now clientId) (cleanup now_cleanup (storage rl), true)
          (rules rl) in
  (acc.2, {| storage := acc.1; rules := rules rl |}).

Definition reset (clientId : string) (rl : t) : t :=
  {| storage :=
       foldl (λ st rule, delete (key clientId rule) st) (storage rl) (rules rl);
     rules := rules rl |}.

(** The public methods of the class that take a client identifier.  The
    other members ([storage], [rules], [getClientIdentifier], [cleanup],
    [middleware]) are never looked up by name in the code modelled here and
    are left out of the table.  The class has no member [tryAcquire]. *)
Inductive method := m_isAllowed | m_reset.

(** [this.rateLimiter[name]], for [name] outside the members left out. *)
Definition lookup_method (name : string) : option method :=
  if decide (name = "isAllowed") then Some m_isAllowed
  else if decide (name = "reset") then Some m_reset
  else None.

(** Calling a method and testing its result as a condition ([reset] returns
    [undefined], which is falsy). *)
Definition invoke (m : method) (now_cleanup now : Z) (clientId : string)
    (rl : t) : bool * t :=
  match m with
  | m_isAllowed => isAllowed now_cleanup now clientId rl
  | m_reset => (false, reset clientId rl)
  end.

End RateLimiter.

Module BruteForceProtection.

Record t := mk {
  failedAttempts : gmap string Z;
  lastAttemptTime : gmap string Z;
  lockoutDuration : Z;
  maxAttempts : Z
}.

Definition new (maxAttempts lockoutDuration : Z) : t :=
  {| failedAttempts := ∅; lastAttemptTime := ∅;
     lockoutDuration := lockoutDuration; maxAttempts := maxAttempts |}.

(** The default arguments of the constructor. *)
Definition new_default : t := new 5 (15 * 60 * 1000).

Definition recordFailedAttempt (now : Z) (identifier : string) (bf : t) : t :=
  let attempts := default 0 (failedAttempts bf !! identifier) + 1 in
  {| failedAttempts := <[identifier := attempts]> (failedAttempts bf);
     lastAttemptTime := <[identifier := now]> (lastAttemptTime bf);
     lockoutDuration := lockoutDuration bf; maxAttempts := maxAttempts bf |}.

Definition resetAttempts (identifier : string) (bf : t) : t :=
  {| failedAttempts := delete identifier (failedAttempts bf);
     lastAttemptTime := delete identifier (lastAttemptTime bf);
     lockoutDuration := lockoutDuration bf; maxAttempts := maxAttempts bf |}.

(** The condition of the [if] in [clearExpiredLockouts] for an entry
    [identifier ↦ attempts] of [failedAttempts].  Its first conjunct is the
    truthiness of [lastAttemptTime]: [undefined] and [0] are both falsy. *)
Definition lockout_expired (now : Z) (bf : t) (identifier : string)
    (attempts : Z) : bool :=
  match lastAttemptTime bf !! identifier with
  | Some last =>
      negb (last =? 0) && (attempts >=? maxAttempts bf)
      && (now - last >? lockoutDuration bf)
  | None => false
  end.

(** Whether the loop of [clearExpiredLockouts] deletes [identifier]. *)
Definition purged (now : Z) (bf : t) (identifier : string) : bool :=
  match failedAttempts bf !! identifier with
  | Some attempts => lockout_expired now bf identifier attempts
  | None => false
  end.

(** [clearExpiredLockouts]: an iteration reads and deletes the entries of the
    identifier it visits only, so the loop removes, from both maps, exactly
    the identifiers for which the condition holds on entry. *)
Definition clearExpiredLockouts (now : Z) (bf : t) : t :=
  {| failedAttempts :=
       filter (λ kv, purged now bf kv.1 = false) (failedAttempts bf);
     lastAttemptTime :=
       filter (λ kv, purged now bf kv.1 = false) (lastAttemptTime bf);
     lockoutDuration := lockoutDuration bf; maxAttempts := maxAttempts bf |}.

Definition isAllowed (now : Z) (identifier : string) (bf : t) : bool * t :=
  let bf' := clearExpiredLockouts now bf in
  (default 0 (failedAttempts bf' !! identifier) <? maxAttempts bf', bf').

End BruteForceProtection.

(** ** The session manager *)

(** What a rejected call throws. *)
Inductive JsError :=
| TypeError (message : string)
| Error (message : string).

Module SessionManager.

Record t := mk {
  store : gmap string Session;
  rateLimiter : RateLimiter.t;
  cleanupInterval : Z
}.

(** The constructor.  The limiter rule and the period of the cleanup timer
    ([setInterval]) are the literals of the source; the configuration the
    constructor reads is not used.  A tick of the timer runs [sweep]. *)
Definition new (config : SecurityConfig) (st : gmap string Session) : t :=
  {| store := st;
     rateLimiter :=
       RateLimiter.new config [ {| windowMs := 60000; maxRequests := 10 |} ];
     cleanupInterval := 300000 |}.

Definition sweep (now : Z) (m : t) : t :=
  {| store := InMemorySessionStore.cleanup now (store m);
     rateLimiter := rateLimiter m; cleanupInterval := cleanupInterval m |}.

(** The body of [createSession], for the member [name] of the limiter that
    it calls.  A member the limiter does not have evaluates to [undefined],
    and calling it throws a [TypeError] before anything else happens. *)
Definition createSession_calling (name : string) (config : SecurityConfig)
    (sessionId : string) (now_cleanup now_limit now : Z) (uid : string)
    (d : gmap string JsValue) (m : t) : (JsError + Session) * t :=
  match RateLimiter.lookup_method name with
  | None =>
      (inl (TypeError ("this.rateLimiter." +:+ name +:+ " is not a function")),
       m)
  | Some f =>
      let r := RateLimiter.invoke f now_cleanup now_limit uid (rateLimiter m) in
      if negb r.1
      then (inl (Error "Rate limit exceeded for session creation"),
            {| store := store m; rateLimiter := r.2;
               cleanupInterval := cleanupInterval m |})
      else
        let c := InMemorySessionStore.create config sessionId now uid d (store m) in
        (inr c.1, {| store := c.2; rateLimiter := r.2;
                     cleanupInterval := cleanupInterval m |})
  end.

(** [createSession] calls [this.rateLimiter.tryAcquire(userId)]. *)
Definition createSession : SecurityConfig → string → Z → Z → Z → string →
    gmap string JsValue → t → (JsError + Session) * t :=
  createSession_calling "tryAcquire".

Definition getSession (now : Z) (sessionId : string) (m : t)
  : option Session * t :=
  let r := InMemorySessionStore.get now sessionId (store m) in
  (r.1, {| store := r.2; rateLimiter := rateLimiter m;
           cleanupInterval := cleanupInterval m |}).

Definition updateSession (now : Z) (sessionId : string)
    (d : gmap string JsValue) (m : t) : t :=
  {| store := InMemorySessionStore.update now sessionId d (store m);
     rateLimiter := rateLimiter m; cleanupInterval := cleanupInterval m |}.

Definition deleteSession (sessionId : string) (m : t) : t :=
  {| store := InMemorySessionStore.delete sessionId (store m);
     rateLimiter := rateLimiter m; cleanupInterval := cleanupInterval m |}.

Definition refreshSession (config : SecurityConfig) (now : Z)
    (sessionId : string) (m : t) : t :=
  {| store := InMemorySessionStore.refresh config now sessionId (store m);
     rateLimiter := rateLimiter m; cleanupInterval := cleanupInterval m |}.

End SessionManager.

(** ** Sequences of calls *)

(** A call on the session store.  [OpCreate] and [OpRefresh] carry the
    configuration that [getConfig()] returns when they run. *)
Inductive StoreOp :=
| OpCreate (config : SecurityConfig) (sessionId uid : string)
           (d : gmap string JsValue)
| OpGet (sessionId : string)
| OpUpdate (sessionId : string) (d : gmap string JsValue)
| OpDelete (sessionId : string)
| OpRefresh (config : SecurityConfig) (sessionId : string)
| OpCleanup.

(** One call, made when the clock reads [call.1]. *)
Definition run_op (sessions : gmap string Session) (call : Z * StoreOp)
  : gmap string Session :=
  match call.2 with
  | OpCreate config sessionId uid d =>
      (InMemorySessionStore.create config sessionId call.1 uid d sessions).2
  | OpGet sessionId => (InMemorySessionStore.get call.1 sessionId sessions).2
  | OpUpdate sessionId d => InMemorySessionStore.update call.1 sessionId d sessions
  | OpDelete sessionId => InMemorySessionStore.delete sessionId sessions
  | OpRefresh config sessionId =>
      InMemorySessionStore.refresh config call.1 sessionId sessions
  | OpCleanup => InMemorySessionStore.cleanup call.1 sessions
  end.

Definition run (calls : list (Z * StoreOp)) (sessions : gmap string Session)
  : gmap string Session :=
  foldl run_op sessions calls.

(** Whether a call draws [sessionId] as the identifier of a new session. *)
Definition creates (sessionId : string) (call : Z * StoreOp) : Prop :=
  match call.2 with
  | OpCreate _ sessionId' _ _ => sessionId' = sessionId
  | _ => False
  end.

(** Successive [isAllowed(clientId)] calls on one limiter; a call is given by
    its two clock reads.  The results come in call order. *)
Fixpoint isAllowed_seq (clientId : string) (calls : list (Z * Z))
    (rl : RateLimiter.t) : list bool * RateLimiter.t :=
  match calls with
  | [] => ([], rl)
  | call :: calls' =>
      let r := RateLimiter.isAllowed call.1 call.2 clientId rl in
      let rs := isAllowed_seq clientId calls' r.2 in
      (r.1 :: rs.1, rs.2)
  end.

(** Successive [recordFailedAttempt(identifier)] calls, one per clock read. *)
Definition record_failures (identifier : string) (times : list Z)
    (bf : BruteForceProtection.t) : BruteForceProtection.t :=
  foldl (λ bf now, BruteForceProtection.recordFailedAttempt now identifier bf)
        bf times.

(** ** The configuration manager ([src/utils/config.ts]) *)

Module ConfigManager.

(** A JavaScript number, as far as [validateConfig] compares it: an integer
    or [NaN] (fractions and infinities are left out). *)
Inductive JsNumber :=
| Num (z : Z)
| NaN.

(** [n < bound] for a field that may be [undefined]: [undefined] converts to
    [NaN], and every comparison with [NaN] is false. *)
Definition lt (n : option JsNumber) (bound : Z) : bool :=
  match n with
  | Some (Num z) => bool_decide (z < bound)
  | Some NaN => false
  | None => false
  end.

(** [!s] for a string that may be [undefined]. *)
Definition falsy (s : option string) : bool :=
  match s with
  | Some s => bool_decide (s = "")
  | None => true
  end.

Record PasswordPolicyConfig := mkPolicy {
  minLength : option JsNumber;
  requireUppercase : bool;
  requireLowercase : bool;
  requireNumbers : bool;
  requireSpecialChars : bool;
  maxConsecutiveRepeats : Z;
  minStrengthScore : option Z
}.

Record TwoFactorConfig := mkTwoFactor {
  issuer : string;
  tokenValidityWindow : Z
}.

(** The object held in [this.config], every field of the interface
    [SecurityConfig].  A field holds [None] when it is [undefined], which an
    update can make it. *)
Record Config := mk {
  jwtSecret : option string;
  jwtExpiresIn : option string;
  bcryptSaltRounds : option JsNumber;
  csrfTokenLength : option JsNumber;
  logLevel : option JsNumber;
  ttl : option JsNumber;
  rateLimit : option RateLimitRule;
  passwordPolicy : option PasswordPolicyConfig;
  passwordResetTTL : option JsNumber;
  twoFactorAuth : option TwoFactorConfig;
  encryptionSecret : option string;
  environment : option string;
  cookieMaxAge : option JsNumber
}.

(** [Partial<SecurityConfig>]: a property is absent ([None]) or present
    ([Some v]), and a present property may hold [undefined]
    ([Some None]). *)
Record Partial := mkPartial {
  p_jwtSecret : option (option string);
  p_jwtExpiresIn : option (option string);
  p_bcryptSaltRounds : option (option JsNumber);
  p_csrfTokenLength : option (option JsNumber);
  p_logLevel : option (option JsNumber);
  p_ttl : option (option JsNumber);
  p_rateLimit : option (option RateLimitRule);
  p_passwordPolicy : option (option PasswordPolicyConfig);
  p_passwordResetTTL : option (option JsNumber);
  p_twoFactorAuth : option (option TwoFactorConfig);
  p_encryptionSecret : option (option string);
  p_environment : option (option string);
  p_cookieMaxAge : option (option JsNumber)
}.

(** The object literals [{}], [{ sessionTTL: v }], [{ bcryptSaltRounds: v }]
    and [{ jwtSecret: a, encryptionSecret: b }]. *)
Definition nothing : Partial :=
  mkPartial None None None None None None None None None None None None None.


Definition only_bcryptSaltRounds (v : option JsNumber) : Partial :=
  mkPartial None None (Some v) None None None None None None None None None
    None.

Definition only_secrets (jwt enc : option string) : Partial :=
  mkPartial (Some jwt) None None None None None None None None None (Some enc)
    None None.

(** The variables of [process.env] that the file reads. *)
Record Env := mkEnv {
  JWT_SECRET : option string;
  ENCRYPTION_SECRET : option string;
  NODE_ENV : option string
}.

(** [a || b] on strings that may be [undefined]. *)
Definition or_else (a b : option string) : option string :=
  if falsy a then b else a.

(** [defaultConfig], evaluated when the module is loaded under [env]. *)
Definition defaultConfig (env : Env) : Config :=
  {| jwtSecret := or_else (JWT_SECRET env) (Some "");
     encryptionSecret := or_else (ENCRYPTION_SECRET env) (Some "");
     jwtExpiresIn := Some "1h";
     bcryptSaltRounds := Some (Num 10);
     csrfTokenLength := Some (Num 32);
     logLevel := Some (Num 2);
     ttl := Some (Num (24 * 60 * 60 * 1000));
     rateLimit := Some {| windowMs := 15 * 60 * 1000; maxRequests := 100 |};
     passwordPolicy :=
       Some {| minLength := Some (Num 8); requireUppercase := true;
               requireLowercase := true; requireNumbers := true;
               requireSpecialChars := true; maxConsecutiveRepeats := 3;
               minStrengthScore := Some 3 |};
     passwordResetTTL := Some (Num (60 * 60 * 1000));
     twoFactorAuth := Some {| issuer := "YourApp"; tokenValidityWindow := 1 |};
     environment := or_else (NODE_ENV env) (Some "development");
     cookieMaxAge := Some (Num (7 * 24 * 60 * 60 * 1000)) |}.

(** [{ ...this.config, ...newConfig }]: a shallow merge.  A property that is
    present in [newConfig] replaces the old one, also when it holds
    [undefined], and a nested object replaces the old one as a whole. *)
Definition merge (config : Config) (newConfig : Partial) : Config :=
  {| jwtSecret := default (jwtSecret config) (p_jwtSecret newConfig);
     jwtExpiresIn := default (jwtExpiresIn config) (p_jwtExpiresIn newConfig);
     bcryptSaltRounds :=
       default (bcryptSaltRounds config) (p_bcryptSaltRounds newConfig);
     csrfTokenLength :=
       default (csrfTokenLength config) (p_csrfTokenLength newConfig);
     logLevel := default (logLevel config) (p_logLevel newConfig);
     ttl := default (ttl config) (p_ttl newConfig);
     rateLimit := default (rateLimit config) (p_rateLimit newConfig);
     passwordPolicy :=
       default (passwordPolicy config) (p_passwordPolicy newConfig);
     passwordResetTTL :=
       default (passwordResetTTL config) (p_passwordResetTTL newConfig);
     twoFactorAuth := default (twoFactorAuth config) (p_twoFactorAuth newConfig);
     encryptionSecret :=
       default (encryptionSecret config) (p_encryptionSecret newConfig);
     environment := default (environment config) (p_environment newConfig);
     cookieMaxAge := default (cookieMaxAge config) (p_cookieMaxAge newConfig) |}.

(** [validateConfig]: the error it throws, if any.  The checks run in the
    order of the source; reading [minLength] of a [passwordPolicy] that is
    [undefined] is a [TypeError]. *)
Definition validateConfig (env : Env) (config : Config) : option JsError :=
  if bool_decide (NODE_ENV env ≠ Some "test")
     && (falsy (jwtSecret config)
         || bool_decide (jwtSecret config = Some "your-secret-key"))
  then Some (Error "JWT secret must be set to a secure value")
  else if bool_decide (NODE_ENV env ≠ Some "test")
          && (falsy (encryptionSecret config)
              || bool_decide
                   (encryptionSecret config = Some "your-encryption-secret-key"))
  then Some (Error "Encryption secret must be set to a secure value")
  else if lt (bcryptSaltRounds config) 10
  then Some (Error "bcryptSaltRounds should be at least 10")
  else match passwordPolicy config with
       | None =>
           Some (TypeError
                   "Cannot read properties of undefined (reading 'minLength')")
       | Some policy =>
           if lt (minLength policy) 8
           then Some (Error
                        "Minimum password length should be at least 8 characters")
           else None
       end.

(** [error.message]. *)
Definition message_of (error : JsError) : string :=
  match error with
  | TypeError message => message
  | Error message => message
  end.

(** [updateConfig]: the error it throws, if any, and the configuration the
    manager holds afterwards.  Whatever [validateConfig] throws is an
    [Error], so the handler always takes its first branch. *)
Definition updateConfig (env : Env) (newConfig : Partial) (config : Config)
  : option JsError * Config :=
  let updatedConfig := merge config newConfig in
  match validateConfig env updatedConfig with
  | Some error =>
      (Some (Error ("Configuration update failed: " +:+ message_of error)),
       config)
  | None => (None, updatedConfig)
  end.

Definition loadFromEnv (env : Env) (config : Config)
  : option JsError * Config :=
  updateConfig env
    (only_secrets (or_else (JWT_SECRET env) (jwtSecret config))
                  (or_else (ENCRYPTION_SECRET env) (encryptionSecret config)))
    config.

(** An attempt to change the configuration. *)
Inductive Attempt :=
| Update (newConfig : Partial)
| LoadFromEnv.

Definition attempt (config : Config) (call : Env * Attempt) : Config :=
  match call.2 with
  | Update newConfig => (updateConfig call.1 newConfig config).2
  | LoadFromEnv => (loadFromEnv call.1 config).2
  end.

(** What the session and rate-limiting code reads of the object that
    [getConfig()] returns, when [sessionTTL] holds an integer and
    [defaultRateLimit] a rule. *)
Definition view (config : Config) : option SecurityConfig :=
  match ttl config, rateLimit config with
  | Some (Num z), Some rule =>
      Some {| sessionTTL := z; defaultRateLimit := rule |}
  | _, _ => None
  end.

End ConfigManager.

(** What [validateConfig] lets through: a [bcryptSaltRounds] that is not a
    number below 10, a [passwordPolicy] that is an object whose [minLength]
    is not a number below 8 and, outside the test environment, secrets that
    are neither falsy nor the placeholders. *)
Definition validated (env : ConfigManager.Env)
    (config : ConfigManager.Config) : Prop :=
  ConfigManager.lt (ConfigManager.bcryptSaltRounds config) 10 = false
  ∧ (∃ policy,
       ConfigManager.passwordPolicy config = Some policy
       ∧ ConfigManager.lt (ConfigManager.minLength policy) 8 = false)
  ∧ (ConfigManager.NODE_ENV env ≠ Some "test" →
     ∃ jwt enc,
       ConfigManager.jwtSecret config = Some jwt
       ∧ jwt ≠ "" ∧ jwt ≠ "your-secret-key"
       ∧ ConfigManager.encryptionSecret config = Some enc
       ∧ enc ≠ "" ∧ enc ≠ "your-encryption-secret-key").

(** The part of it that does not depend on the environment. *)
Definition bounded (config : ConfigManager.Config) : Prop :=
  ConfigManager.lt (ConfigManager.bcryptSaltRounds config) 10 = false
  ∧ ∃ policy,
      ConfigManager.passwordPolicy config = Some policy
      ∧ ConfigManager.lt (ConfigManager.minLength policy) 8 = false.

(** ** The process: one configuration singleton and the instances *)

Module Runtime.

Record t := mk {
  config : ConfigManager.Config;
  sessions : gmap string Session;
  limiter : RateLimiter.t;
  guard : BruteForceProtection.t
}.

(** What a call of [getConfig()] gives the session and rate-limiting code.
    The result is [None] when [sessionTTL] does not hold an integer or
    [defaultRateLimit] does not hold a rule (an update can set either to
    [undefined] or [NaN]): the timestamps of this file are integers, and the
    operations below are not modelled on such a configuration. *)
Definition getConfig (w : t) : option SecurityConfig :=
  ConfigManager.view (config w).


(** [updateConfig(newConfig)] while the environment is [env]: the error it
    throws, if any, and the process afterwards. *)
Definition updateConfig (env : ConfigManager.Env)
    (newConfig : ConfigManager.Partial) (w : t) : option JsError * t :=
  let r := ConfigManager.updateConfig env newConfig (config w) in
  (r.1, {| config := r.2; sessions := sessions w;
           limiter := limiter w; guard := guard w |}).

Definition create (sessionId : string) (now : Z) (uid : string)
    (d : gmap string JsValue) (w : t) : option (Session * t) :=
  match getConfig w with
  | Some seen =>
      let r := InMemorySessionStore.create seen sessionId now uid d (sessions w) in
      Some (r.1, {| config := config w; sessions := r.2;
                    limiter := limiter w; guard := guard w |})
  | None => None
  end.

(** [refresh] reads the configuration when it found the session. *)
Definition refresh (now : Z) (sessionId : string) (w : t) : option t :=
  match sessions w !! sessionId with
  | Some _ =>
      match getConfig w with
      | Some seen =>
          Some {| config := config w;
                  sessions :=
                    InMemorySessionStore.refresh seen now sessionId (sessions w);
                  limiter := limiter w; guard := guard w |}
      | None => None
      end
  | None => Some w
  end.




End Runtime.

(** ** The counters of the rate limiter, as the specification words them *)

(** One counter per key.  A key without a row is a counter that has not
    counted yet: its first request opens a window.  A row whose [resetTime]
    has passed rolls over, any other row counts one more. *)
Definition spec_roll (now : Z) (rule : RateLimitRule)
    (row : option RateLimitInfo) : RateLimitInfo :=
  match row with
  | None => {| count := 1; resetTime := now + windowMs rule |}
  | Some limitInfo =>
      if decide (now > resetTime limitInfo)
      then {| count := 1; resetTime := now + windowMs rule |}
      else {| count := count limitInfo + 1; resetTime := resetTime limitInfo |}
  end.

(** The counters after the rules [rs] were counted, in order, whatever the
    limits of the rules are. *)
Definition spec_counters (now : Z) (clientId : string)
    (st : gmap string RateLimitInfo) (rs : list RateLimitRule)
  : gmap string RateLimitInfo :=
  foldl (λ st rule,
           <[RateLimiter.key clientId rule :=
               spec_roll now rule (st !! RateLimiter.key clientId rule)]> st)
        st rs.

(** The count of the [i]-th rule right after it was counted. *)
Definition spec_post_count (now : Z) (clientId : string)
    (st : gmap string RateLimitInfo) (rs : list RateLimitRule) (i : nat)
    (rule : RateLimitRule) : Z :=
  count (spec_roll now rule
           (spec_counters now clientId st (take i rs)
              !! RateLimiter.key clientId rule)).

(** What every reachable state of the brute-force guard satisfies: a stored
    count was obtained by adding 1 to a count, or to 0. *)
Definition counts_positive (bf : BruteForceProtection.t) : Prop :=
  ∀ identifier c,
    BruteForceProtection.failedAttempts bf !! identifier = Some c → 1 <= c.

(** ** Relations between counter tables *)

(** [swept] is [full] without some rows whose window had closed before
    [now_cleanup]: what a cleanup pass leaves of [full]. *)
Definition same_up_to_closed (now_cleanup : Z)
    (swept full : gmap string RateLimitInfo) : Prop :=
  ∀ k, swept !! k = full !! k
       ∨ (swept !! k = None
          ∧ ∃ limitInfo, full !! k = Some limitInfo
                         ∧ resetTime limitInfo < now_cleanup).

(** The keys under which the limiter counts the requests of [clientId]. *)
Definition owned_by (clientId : string) (k : string) : Prop :=
  ∃ rule, k = RateLimiter.key clientId rule.

(** Two tables with the same rows outside the keys of [clientId]. *)
Definition agree_off (clientId : string)
    (st1 st2 : gmap string RateLimitInfo) : Prop :=
  ∀ k, ¬ owned_by clientId k → st1 !! k = st2 !! k.

(** A string without the separator of the keys. *)
Fixpoint no_colon (s : string) : Prop :=
  match s with
  | EmptyString => True
  | String c s' => c ≠ ":"%char ∧ no_colon s'
  end.

(** ** Requests and the hooks of the middleware layer *)

(** The parts of an express request that the hooks read: [req.ip],
    [req.connection] (with its [remoteAddress]), [req.path] and
    [req.cookies].  A field that is [undefined] is [None]. *)
Record Request := mkRequest {
  req_ip : option string;
  req_connection : option (option string);
  req_path : string;
  req_cookies : option (gmap string string)
}.

(** Truthiness of a string that may be [undefined]: the empty string is
    falsy. *)
Definition truthy (v : option string) : bool :=
  match v with
  | Some s => if decide (s = "") then false else true
  | None => false
  end.

(** [getClientIdentifier], the same in both classes:
    [req.ip || req.connection.remoteAddress || "unknown"].  Reading
    [remoteAddress] of an [undefined] connection throws. *)
Definition getClientIdentifier (req : Request) : JsError + string :=
  if truthy (req_ip req) then inr (default "" (req_ip req))
  else
    match req_connection req with
    | None =>
        inl (TypeError
               "Cannot read properties of undefined (reading 'remoteAddress')")
    | Some remoteAddress =>
        if truthy remoteAddress then inr (default "" remoteAddress)
        else inr "unknown"
    end.

(** The arguments a [SecurityLibraryError] is constructed with; a response
    [Respond status e] is [res.status(status).json({ error: e.message })]. *)
Record SecurityLibraryError := mkSecurityError {
  error_message : string;
  error_statusCode : Z
}.

(** A call of [globalLogger.warn(message, meta)]. *)
Record LogCall := mkLogCall {
  log_message : string;
  log_meta : list (string * string)
}.

(** How a hook ends: it calls [next()], it answers, or it throws. *)
Inductive Outcome :=
| Next
| Respond (status : Z) (e : SecurityLibraryError)
| Throw (e : JsError).

(** [RateLimiter.middleware()], applied to a request. *)
Definition RateLimiter_middleware (now_cleanup now : Z) (req : Request)
    (rl : RateLimiter.t) : Outcome * list LogCall * RateLimiter.t :=
  match getClientIdentifier req with
  | inl e => (Throw e, [], rl)
  | inr clientId =>
      let r := RateLimiter.isAllowed now_cleanup now clientId rl in
      if r.1 then (Next, [], r.2)
      else (Respond 429 (mkSecurityError "Rate limit exceeded" 429),
            [mkLogCall "Rate limit exceeded"
               [("clientId", clientId); ("path", req_path req)]],
            r.2)
  end.

(** [BruteForceProtection.middleware()], applied to a request. *)
Definition BruteForceProtection_middleware (now : Z) (req : Request)
    (bf : BruteForceProtection.t)
  : Outcome * list LogCall * BruteForceProtection.t :=
  match getClientIdentifier req with
  | inl e => (Throw e, [], bf)
  | inr identifier =>
      let r := BruteForceProtection.isAllowed now identifier bf in
      if r.1 then (Next, [], r.2)
      else (Respond 403 (mkSecurityError "Account temporarily locked" 403),
            [mkLogCall "Blocked attempt on locked account"
               [("identifier", identifier); ("path", req_path req)]],
            r.2)
  end.

(** [SessionManager.middleware()], applied to a request: the value left in
    [req.session] ([None] is [null]) and the manager.  The hook calls
    [next()] once, at its end, on every path.  [now1], [now2] and [now3] are
    the clock reads of the first [getSession], of [refreshSession] and of the
    second [getSession]; [config] is what [getConfig()] returns in
    [refresh].  The in-memory store does not throw, so the [catch] branch is
    never entered. *)
Definition SessionManager_middleware (config : SecurityConfig)
    (now1 now2 now3 : Z) (req : Request) (m : SessionManager.t)
  : option Session * SessionManager.t :=
  let sessionId := req_cookies req ≫= (λ cookies, cookies !! "sessionId") in
  if truthy sessionId then
    let r1 := SessionManager.getSession now1 (default "" sessionId) m in
    match r1.1 with
    | Some _ =>
        let m2 :=
          SessionManager.refreshSession config now2 (default "" sessionId) r1.2 in
        SessionManager.getSession now3 (default "" sessionId) m2
    | None => (None, r1.2)
    end
  else (None, m).

(** Successive requests through [RateLimiter.middleware()]; a request comes
    with the two clock reads of its [isAllowed].  A request on which the hook
    throws leaves the limiter as it is. *)
Fixpoint RateLimiter_middleware_seq (calls : list (Z * Z * Request))
    (rl : RateLimiter.t) : list Outcome * RateLimiter.t :=
  match calls with
  | [] => ([], rl)
  | call :: calls' =>
      let r := RateLimiter_middleware call.1.1 call.1.2 call.2 rl in
      let rs := RateLimiter_middleware_seq calls' r.2 in
      (r.1.1 :: rs.1, rs.2)
  end.

(** A request that carries no address: [req.ip] is falsy and the connection
    has a falsy [remoteAddress]. *)
Definition unidentified (req : Request) : Prop :=
  truthy (req_ip req) = false
  ∧ ∃ remoteAddress,
      req_connection req = Some remoteAddress ∧ truthy remoteAddress = false.

(** ** The authentication hook ([AuthHelpers.authenticate]) *)

Record User := mkUser {
  user_id : string;
  user_username : string;
  user_password : string;
  user_role : string
}.

(** [req.body], when there is one: the two fields the hook reads. *)
Record Body := mkBody {
  body_username : option string;
  body_password : option string
}.

(** What a collaborator may throw: an error of the library or anything
    else. *)
Inductive Thrown :=
| ThrownSecurity (e : SecurityLibraryError)
| ThrownOther (e : JsError).

(** The collaborators of the hook, whose results the code only consumes:
    the [findUser] callback of the application, [bcrypt.compare] behind
    [verifyPassword] and [jwt.sign] behind [generateToken]. *)
Record Collaborators := mkCollaborators {
  findUser : string → Thrown + option User;
  verifyPassword : string → string → Thrown + bool;
  generateToken : User → Thrown + string
}.

(** The levels of the logger, in the order of the enumeration. *)
Inductive LogLevel := LogError | LogWarn | LogInfo | LogDebug.

(** A value of a log's meta object. *)
Inductive MetaValue :=
| MetaString (s : string)
| MetaThrown (e : Thrown).

Record AuthLog := mkAuthLog {
  auth_log_level : LogLevel;
  auth_log_message : string;
  auth_log_meta : list (string * MetaValue)
}.

(** How the hook ends.  [AuthNext] is [next()] after [res.locals.user] and
    [res.locals.token] were set; [AuthTooMany e] is
    [res.status(429).json({ error: e.message })];
    [AuthRefused e] is [res.status(e.statusCode).json({ error: e.message })];
    [AuthInternal] is the answer 500 "Internal server error". *)
Inductive AuthOutcome :=
| AuthNext (user : User) (token : string)
| AuthTooMany (e : SecurityLibraryError)
| AuthRefused (e : SecurityLibraryError)
| AuthInternal
| AuthThrow (e : JsError).

(** The [catch] block of the hook. *)
Definition auth_catch (e : Thrown) : AuthOutcome * list AuthLog :=
  match e with
  | ThrownSecurity e => (AuthRefused e, [])
  | ThrownOther _ =>
      (AuthInternal,
       [mkAuthLog LogError "Unexpected error during authentication"
          [("error", MetaThrown e)]])
  end.

(** The warning that [recordFailedAttempt] logs when the count it stores
    has reached the limit. *)
Definition recordFailedAttempt_log (identifier : string)
    (bf : BruteForceProtection.t) : list AuthLog :=
  if default 0 (BruteForceProtection.failedAttempts bf !! identifier) + 1
     >=? BruteForceProtection.maxAttempts bf
  then [mkAuthLog LogWarn "Account locked due to too many failed attempts"
          [("identifier", MetaString identifier)]]
  else [].

(** The branch of the hook for a wrong user name or password. *)
Definition auth_fail (now_fail : Z) (clientId : string)
    (rl : RateLimiter.t) (bf : BruteForceProtection.t)
  : AuthOutcome * list AuthLog * (RateLimiter.t * BruteForceProtection.t) :=
  (AuthRefused (mkSecurityError "Invalid credentials" 401),
   recordFailedAttempt_log clientId bf,
   (rl, BruteForceProtection.recordFailedAttempt now_fail clientId bf)).

(** The hook returned by [authenticate(findUser)], applied to a request, on
    the global limiter and the global guard.  [now_cleanup] and [now_limit]
    are the clock reads of [isAllowed], [now_fail] the one of
    [recordFailedAttempt]. *)
Definition authenticate (ext : Collaborators)
    (now_cleanup now_limit now_fail : Z) (req : Request) (body : option Body)
    (rl : RateLimiter.t) (bf : BruteForceProtection.t)
  : AuthOutcome * list AuthLog * (RateLimiter.t * BruteForceProtection.t) :=
  match getClientIdentifier req with
  | inl e => (AuthThrow e, [], (rl, bf))
  | inr clientId =>
      let r := RateLimiter.isAllowed now_cleanup now_limit clientId rl in
      if negb r.1
      then (AuthTooMany (mkSecurityError "Too many authentication attempts" 429),
            [mkAuthLog LogWarn "Rate limit exceeded for authentication"
               [("clientId", MetaString clientId)]],
            (r.2, bf))
      else
        match body with
        | None =>
            let c := auth_catch
                       (ThrownOther
                          (TypeError
                             "Cannot destructure property 'username' of 'req.body' as it is undefined.")) in
            (c.1, c.2, (r.2, bf))
        | Some b =>
            if negb (truthy (body_username b)) || negb (truthy (body_password b))
            then
              let c := auth_catch
                         (ThrownSecurity
                            (mkSecurityError
                               "Username and password are required" 400)) in
              (c.1, c.2, (r.2, bf))
            else
              let username := default "" (body_username b) in
              let password := default "" (body_password b) in
              match findUser ext username with
              | inl e => let c := auth_catch e in (c.1, c.2, (r.2, bf))
              | inr None => auth_fail now_fail clientId r.2 bf
              | inr (Some user) =>
                  match verifyPassword ext password (user_password user) with
                  | inl e => let c := auth_catch e in (c.1, c.2, (r.2, bf))
                  | inr false => auth_fail now_fail clientId r.2 bf
                  | inr true =>
                      match generateToken ext user with
                      | inl e => let c := auth_catch e in (c.1, c.2, (r.2, bf))
                      | inr token =>
                          (AuthNext user token,
                           [mkAuthLog LogInfo "User authenticated successfully"
                              [("username", MetaString username)]],
                           (r.2,
                            BruteForceProtection.resetAttempts clientId bf))
                      end
                  end
              end
        end
  end.

(** ** The logger ([src/utils/logger.ts]) *)

Module Logger.

(** The values that can be passed as [meta].  An object is the list of its
    entries, in the order of [Object.entries]; its keys are distinct.  Keys
    are ASCII: [toLowerCase] is modelled on the letters [A] to [Z]. *)
#[local] Unset Elimination Schemes.
Inductive Js :=
| JUndefined
| JNull
| JBoolean (b : bool)
| JNumber (n : Z)
| JString (s : string)
| JObject (entries : list (string * Js))
| JArray (items : list Js).
#[local] Set Elimination Schemes.

Definition lower_char (c : ascii) : ascii :=
  let n := N_of_ascii c in
  if ((65 <=? n) && (n <=? 90))%N then ascii_of_N (n + 32) else c.

Fixpoint toLowerCase (s : string) : string :=
  match s with
  | EmptyString => EmptyString
  | String c s' => String (lower_char c) (toLowerCase s')
  end.

Fixpoint starts_with (prefix s : string) : bool :=
  match prefix, s with
  | EmptyString, _ => true
  | String a prefix', String b s' =>
      if decide (a = b) then starts_with prefix' s' else false
  | String _ _, EmptyString => false
  end.

(** [s.includes(sub)]. *)
Fixpoint includes (s sub : string) : bool :=
  starts_with sub s
  || match s with
     | EmptyString => false
     | String _ s' => includes s' sub
     end.

Definition sensitiveFields : list string :=
  ["password"; "token"; "secret"; "key"; "cookie"].

Definition isSensitiveField (field : string) : bool :=
  existsb (λ sensitive, includes (toLowerCase field) sensitive) sensitiveFields.

(** What the loop of [sanitize] stores under [key]; [rec] is [sanitize]
    itself, which returns a value that is not an object as it is. *)
Definition sanitize_entry (rec : Js → Js) (key : string) (value : Js) : Js :=
  if isSensitiveField key then JString "[REDACTED]" else rec value.

(** [sanitize].  [Object.entries] of an array are its items under their
    indices, so an array comes back as an object. *)
Fixpoint sanitize (d : Js) : Js :=
  match d with
  | JObject entries =>
      JObject
        ((fix go (l : list (string * Js)) : list (string * Js) :=
            match l with
            | [] => []
            | (key, value) :: l' =>
                (key, sanitize_entry sanitize key value) :: go l'
            end) entries)
  | JArray items =>
      JObject
        ((fix go (i : nat) (l : list Js) : list (string * Js) :=
            match l with
            | [] => []
            | value :: l' =>
                (pretty i, sanitize_entry sanitize (pretty i) value)
                :: go (S i) l'
            end) 0%nat items)
  | _ => d
  end.

(** Whether no value stands under a sensitive key, at any depth. *)
Fixpoint is_redacted (d : Js) : bool :=
  match d with
  | JObject entries =>
      forallb (λ entry : string * Js,
                 let (key, value) := entry in
                 if isSensitiveField key
                 then match value with
                      | JString s => bool_decide (s = "[REDACTED]")
                      | _ => false
                      end
                 else is_redacted value) entries
  | JArray items => forallb is_redacted items
  | _ => true
  end.

Definition level_number (level : LogLevel) : Z :=
  match level with
  | LogError => 0
  | LogWarn => 1
  | LogInfo => 2
  | LogDebug => 3
  end.

Definition level_name (level : LogLevel) : string :=
  match level with
  | LogError => "ERROR"
  | LogWarn => "WARN"
  | LogInfo => "INFO"
  | LogDebug => "DEBUG"
  end.

(** The object that [log] prints (through [JSON.stringify]). *)
Record LogMessage := mkLogMessage {
  timestamp : string;
  level : string;
  message : string;
  meta : Js
}.

(** [log]: [logLevel] is the level of the configuration that the logger
    captured when it was constructed, [now] is [new Date().toISOString()];
    the result is what is printed, if anything. *)
Definition log (logLevel : Z) (now : string) (lvl : LogLevel) (msg : string)
    (m : Js) : option LogMessage :=
  if level_number lvl <=? logLevel
  then Some {| timestamp := now; level := level_name lvl; message := msg;
               meta := sanitize m |}
  else None.

End Logger.

(** Successive requests with the same cookies through
    [SessionManager.middleware()], each with its three clock reads; the
    results are the values left in [req.session]. *)
Fixpoint SessionManager_middleware_seq (config : SecurityConfig)
    (calls : list (Z * Z * Z)) (req : Request) (m : SessionManager.t)
  : list (option Session) * SessionManager.t :=
  match calls with
  | [] => ([], m)
  | call :: calls' =>
      let r := SessionManager_middleware config call.1.1 call.1.2 call.2 req m in
      let rs := SessionManager_middleware_seq config calls' req r.2 in
      (r.1 :: rs.1, rs.2)
  end.

(** Requests that come in time.  A request is given by its three clock
    reads (lookup, refresh, second lookup): the first read is not after
    [bound], the expiry that the request before it set, and the third read
    is not after the expiry that its own refresh sets, the second read plus
    [ttl]. *)
Fixpoint in_time (ttl bound : Z) (calls : list (Z * Z * Z)) : Prop :=
  match calls with
  | [] => True
  | call :: calls' =>
      call.1.1 <= bound ∧ call.2 <= call.1.2 + ttl
      ∧ in_time ttl (call.1.2 + ttl) calls'
  end.

(** ** Sequences of calls on the brute-force guard *)

Inductive GuardOp :=
| GRecord (identifier : string)
| GReset (identifier : string)
| GCheck (identifier : string).

Definition run_guard_op (bf : BruteForceProtection.t) (call : Z * GuardOp)
  : BruteForceProtection.t :=
  match call.2 with
  | GRecord identifier =>
      BruteForceProtection.recordFailedAttempt call.1 identifier bf
  | GReset identifier => BruteForceProtection.resetAttempts identifier bf
  | GCheck identifier => (BruteForceProtection.isAllowed call.1 identifier bf).2
  end.

Definition run_guard (calls : list (Z * GuardOp)) (bf : BruteForceProtection.t)
  : BruteForceProtection.t :=
  foldl run_guard_op bf calls.

(** ** Where a stored session comes from *)

(** [s] is the record that some [create] call of [calls] made: same
    identifier, user and creation time. *)
Definition created_by (calls : list (Z * StoreOp)) (s : Session) : Prop :=
  ∃ config d,
    (createdAt s, OpCreate config (session_id s) (userId s) d) ∈ calls.

(** * Properties *)

(** ** The tests of the repository, replayed on the model *)

Example test_isAllowed_returns_correct_values :
  (isAllowed_seq "127.0.0.1" [(5, 5); (5, 5); (5, 6)]
     (RateLimiter.new defaultConfig [mkRule 1000 2])).1
  = [true; true; false].
Proof. by vm_compute. Qed.

Example test_allows_attempts_within_limit :
  let bf0 := BruteForceProtection.new 3 1000 in
  (BruteForceProtection.isAllowed 5 "127.0.0.1" bf0).1 = true
  ∧ (BruteForceProtection.isAllowed 6 "127.0.0.1"
       (record_failures "127.0.0.1" [5; 5] bf0)).1 = true.
Proof. by vm_compute. Qed.

Example test_blocks_attempts_over_limit :
  (BruteForceProtection.isAllowed 6 "127.0.0.1"
     (record_failures "127.0.0.1" [5; 5; 5]
        (BruteForceProtection.new 3 1000))).1 = false.
Proof. by vm_compute. Qed.

Example test_resets_attempts :
  (BruteForceProtection.isAllowed 6 "127.0.0.1"
     (BruteForceProtection.resetAttempts "127.0.0.1"
        (record_failures "127.0.0.1" [5; 5]
           (BruteForceProtection.new 3 1000)))).1 = true.
Proof. by vm_compute. Qed.

Example test_expired_sessions_are_removed :
  let config := {| sessionTTL := 1000;
                  defaultRateLimit := defaultRateLimit defaultConfig |} in
  let created := InMemorySessionStore.create config "5f2a" 10 "user123" ∅ ∅ in
  InMemorySessionStore.get 10 "5f2a" created.2 = (Some created.1, created.2)
  ∧ InMemorySessionStore.get 1110 "5f2a" created.2 = (None, ∅).
Proof. by vm_compute. Qed.

Example test_refreshSession_extends_expiration :
  let config := {| sessionTTL := 1000;
                  defaultRateLimit := defaultRateLimit defaultConfig |} in
  let created := InMemorySessionStore.create config "5f2a" 10 "user123" ∅ ∅ in
  let refreshed := InMemorySessionStore.refresh config 510 "5f2a" created.2 in
  (InMemorySessionStore.get 1210 "5f2a" refreshed).1
  = Some (set_expiresAt 1510 created.1).
Proof. by vm_compute. Qed.

Example test_updateSession_updates_data :
  let created :=
    InMemorySessionStore.create defaultConfig "5f2a" 10 "user123"
      {[ "role" := JsStr "admin" ]} ∅ in
  let updated :=
    InMemorySessionStore.update 11 "5f2a" {[ "newData" := JsStr "value" ]}
      created.2 in
  (λ s, (data s !! "newData", data s !! "role"))
    <$> (InMemorySessionStore.get 12 "5f2a" updated).1
  = Some (Some (JsStr "value"), Some (JsStr "admin")).
Proof. by vm_compute. Qed.

(** ** The session store *)

Lemma get_absent now sessionId (sessions : gmap string Session) :
  sessions !! sessionId = None →
  InMemorySessionStore.get now sessionId sessions = (None, sessions).
Proof. unfold InMemorySessionStore.get. by intros ->. Qed.

Lemma get_expired now sessionId (sessions : gmap string Session) s :
  sessions !! sessionId = Some s → expiresAt s < now →
  InMemorySessionStore.get now sessionId sessions
  = (None, delete sessionId sessions).
Proof.
  unfold InMemorySessionStore.get. intros -> Hlt.
  by destruct (Z.ltb_spec (expiresAt s) now); [|lia].
Qed.

Lemma get_valid now sessionId (sessions : gmap string Session) s :
  sessions !! sessionId = Some s → expiresAt s >= now →
  InMemorySessionStore.get now sessionId sessions = (Some s, sessions).
Proof.
  unfold InMemorySessionStore.get. intros -> Hge.
  by destruct (Z.ltb_spec (expiresAt s) now); [lia|].
Qed.

(** The three outcomes of [get], by cases on the row and the clock. *)
Lemma get_cases now sessionId (sessions : gmap string Session) :
  (sessions !! sessionId = None
   ∧ InMemorySessionStore.get now sessionId sessions = (None, sessions))
  ∨ (∃ s, sessions !! sessionId = Some s ∧ expiresAt s < now
     ∧ InMemorySessionStore.get now sessionId sessions
       = (None, delete sessionId sessions))
  ∨ (∃ s, sessions !! sessionId = Some s ∧ expiresAt s >= now
     ∧ InMemorySessionStore.get now sessionId sessions = (Some s, sessions)).
Proof.
  destruct (sessions !! sessionId) as [s|] eqn:Hs.
  - destruct (Z.lt_ge_cases (expiresAt s) now).
    + right; left. exists s. eauto using get_expired.
    + right; right. exists s. split_and!; [done|lia|].
      apply get_valid; [done|lia].
  - left. eauto using get_absent.
Qed.

(** C2. [get(id)] returns the stored record exactly when there is one and
    its [expiresAt] is not before the clock; a record whose [expiresAt] is
    before the clock is deleted and [get] returns nothing; an identifier
    without a record yields nothing and leaves the store alone.  So a read at
    [expiresAt] itself returns the session, and every read after it returns
    nothing. *)
Theorem C2_get_unexpired_or_evict
    (now : Z) (sessionId : string) (sessions : gmap string Session) :
  let r := InMemorySessionStore.get now sessionId sessions in
  (∀ s, r.1 = Some s ↔ sessions !! sessionId = Some s ∧ expiresAt s >= now)
  ∧ (∀ s, sessions !! sessionId = Some s → expiresAt s >= now →
       r = (Some s, sessions))
  ∧ (∀ s, sessions !! sessionId = Some s → expiresAt s < now →
       r = (None, delete sessionId sessions) ∧ r.2 !! sessionId = None)
  ∧ (sessions !! sessionId = None → r = (None, sessions))
  ∧ (∀ s, sessions !! sessionId = Some s →
       (InMemorySessionStore.get (expiresAt s) sessionId sessions).1 = Some s
       ∧ ∀ later, expiresAt s < later →
           (InMemorySessionStore.get later sessionId sessions).1 = None).
Proof.
  cbv zeta. split_and!.
  - intros s.
    destruct (get_cases now sessionId sessions)
      as [[Hs ->]|[(s' & Hs & Hlt & ->)|(s' & Hs & Hge & ->)]]; simpl.
    + rewrite Hs. split; [done|by intros [? _]].
    + rewrite Hs. split; [done|]. intros [[= ->] ?]. lia.
    + rewrite Hs. split; [|by intros [? _]].
      intros [= ->]. split; [done|lia].
  - intros s Hs Hge. by apply get_valid.
  - intros s Hs Hlt. rewrite (get_expired _ _ _ s) by done.
    split; [done|]. apply lookup_delete_eq.
  - apply get_absent.
  - intros s Hs. split.
    + rewrite (get_valid _ _ _ s); [done..|lia].
    + intros later Hlater. by rewrite (get_expired _ _ _ s).
Qed.

(** C8. [cleanup()] removes the records whose [expiresAt] is before the
    clock read of the call and no other: such a record is gone afterwards, a
    record with [expiresAt >= now] (equality included) is still there,
    unchanged, and the sweep adds nothing. *)
Theorem C8_cleanup_removes_exactly_expired
    (now : Z) (sessions : gmap string Session) (sessionId : string) :
  (∀ s, sessions !! sessionId = Some s → expiresAt s < now →
     InMemorySessionStore.cleanup now sessions !! sessionId = None)
  ∧ (∀ s, sessions !! sessionId = Some s → expiresAt s >= now →
       InMemorySessionStore.cleanup now sessions !! sessionId = Some s)
  ∧ (∀ s, InMemorySessionStore.cleanup now sessions !! sessionId = Some s →
       sessions !! sessionId = Some s ∧ expiresAt s >= now)
  ∧ (sessions !! sessionId = None →
       InMemorySessionStore.cleanup now sessions !! sessionId = None).
Proof.
  unfold InMemorySessionStore.cleanup. split_and!.
  - intros s Hs Hlt. apply map_lookup_filter_None. right.
    intros s' Hs'. simpl. simplify_eq. tauto.
  - intros s Hs Hge. apply map_lookup_filter_Some. simpl. split; [done|lia].
  - intros s [Hs Hk]%map_lookup_filter_Some. simpl in Hk. split; [done|lia].
  - intros Hs. apply map_lookup_filter_None. by left.
Qed.

Lemma spread_lookup (a b : gmap string JsValue) k :
  spread a b !! k = match b !! k with Some v => Some v | None => a !! k end.
Proof.
  unfold spread. destruct (b !! k) as [v|] eqn:Hb.
  - by apply lookup_union_Some_l.
  - by apply lookup_union_r.
Qed.

Lemma update_other now sessionId d (sessions : gmap string Session) other :
  other ≠ sessionId →
  InMemorySessionStore.update now sessionId d sessions !! other
  = sessions !! other.
Proof.
  intros Hne. unfold InMemorySessionStore.update.
  destruct (get_cases now sessionId sessions)
    as [[Hs ->]|[(s & Hs & Hlt & ->)|(s & Hs & Hge & ->)]].
  - done.
  - unfold InMemorySessionStore.delete. by rewrite lookup_delete_ne.
  - by rewrite lookup_insert_ne.
Qed.

(** C7, as the specification states it, fails on an expired session:
    [update] reads through [get], which deletes the expired record, so the
    store is not what it was. *)
Lemma C7_counterexample_update_evicts_expired :
  let s0 := {| session_id := "s1"; userId := "u1"; createdAt := 0;
               expiresAt := 10; data := ∅ |} in
  let sessions : gmap string Session := {[ "s1" := s0 ]} in
  sessions !! "s1" = Some s0 ∧ expiresAt s0 < 11
  ∧ InMemorySessionStore.update 11 "s1" {[ "k" := JsNum 1 ]} sessions
    ≠ sessions.
Proof.
  cbv zeta. split_and!; [done|done|].
  intros H. apply (f_equal (λ m : gmap string Session, m !! "s1")) in H.
  vm_compute in H. discriminate H.
Qed.

(** C7, amended.  [update(id, partialData)] leaves the store as it is when
    the session is absent; when the session is there but expired it removes
    that record (the eviction of [get]) and merges nothing; otherwise it
    replaces the record by one whose [data] is the shallow merge (a key of
    [partialData] takes the value [partialData] gives it, any other key keeps
    the value of [data]) and whose [id], [userId], [createdAt] and
    [expiresAt] are those of the old record.  No other session changes. *)
Theorem C7_update_merges_or_evicts
    (now : Z) (sessionId : string) (partialData : gmap string JsValue)
    (sessions : gmap string Session) :
  let sessions' :=
    InMemorySessionStore.update now sessionId partialData sessions in
  (sessions !! sessionId = None → sessions' = sessions)
  ∧ (∀ s, sessions !! sessionId = Some s → expiresAt s < now →
       sessions' = delete sessionId sessions)
  ∧ (∀ s, sessions !! sessionId = Some s → expiresAt s >= now →
       ∃ s', sessions' = <[sessionId := s']> sessions
         ∧ session_id s' = session_id s ∧ userId s' = userId s
         ∧ createdAt s' = createdAt s ∧ expiresAt s' = expiresAt s
         ∧ ∀ k, data s' !! k
                = match partialData !! k with
                  | Some v => Some v
                  | None => data s !! k
                  end)
  ∧ (∀ other, other ≠ sessionId → sessions' !! other = sessions !! other).
Proof.
  cbv zeta. split_and!.
  - intros Hs. unfold InMemorySessionStore.update. by rewrite get_absent.
  - intros s Hs Hlt. unfold InMemorySessionStore.update.
    by rewrite (get_expired _ _ _ s).
  - intros s Hs Hge. unfold InMemorySessionStore.update.
    rewrite (get_valid _ _ _ s) by done.
    eexists. split; [done|]. simpl. split_and!; try done.
    intros k. apply spread_lookup.
  - intros other Hne. by apply update_other.
Qed.

(** A call that does not draw [sessionId] cannot bring its record in. *)
Lemma run_op_absent sessionId (sessions : gmap string Session) call :
  sessions !! sessionId = None → ¬ creates sessionId call →
  run_op sessions call !! sessionId = None.
Proof.
  intros Habs Hfresh. destruct call as [now op]. unfold run_op, creates in *.
  simpl in *. destruct op as [config id' uid d|id'|id' d|id'|config id'|].
  - simpl. by rewrite lookup_insert_ne.
  - destruct (get_cases now id' sessions)
      as [[Hs ->]|[(s & Hs & Hlt & ->)|(s & Hs & Hge & ->)]]; simpl; try done.
    rewrite lookup_delete. by case_decide.
  - destruct (decide (id' = sessionId)) as [->|Hne].
    + unfold InMemorySessionStore.update. by rewrite get_absent.
    + by rewrite update_other.
  - unfold InMemorySessionStore.delete. rewrite lookup_delete. by case_decide.
  - unfold InMemorySessionStore.refresh.
    destruct (sessions !! id') as [s|] eqn:Hs; [|done].
    rewrite lookup_insert_ne; [done|]. intros ->. congruence.
  - unfold InMemorySessionStore.cleanup. apply map_lookup_filter_None. by left.
Qed.

Lemma run_absent sessionId calls : ∀ sessions : gmap string Session,
  sessions !! sessionId = None → Forall (λ call, ¬ creates sessionId call) calls →
  run calls sessions !! sessionId = None.
Proof.
  unfold run. induction calls as [|call calls IH]; intros sessions Habs Hfresh.
  - done.
  - inversion Hfresh; subst. simpl. apply IH; [|done].
    by apply run_op_absent.
Qed.

(** C6, as the specification states it, fails: a session whose [expiresAt]
    has passed but whose record was not evicted yet is brought back by
    [refresh], which does not look at [expiresAt]. *)
Lemma C6_counterexample_refresh_revives_expired :
  let config := {| sessionTTL := 10; defaultRateLimit := mkRule 60000 10 |} in
  let st0 := (InMemorySessionStore.create config "s1" 0 "u1" ∅ ∅).2 in
  let st1 := run [(11, OpRefresh config "s1")] st0 in
  let m := {| SessionManager.store := st1;
              SessionManager.rateLimiter := RateLimiter.new config [];
              SessionManager.cleanupInterval := 300000 |} in
  (∃ s, st0 !! "s1" = Some s ∧ expiresAt s < 11)
  ∧ (∃ s, (SessionManager.getSession 12 "s1" m).1 = Some s
          ∧ session_id s = "s1").
Proof.
  cbv zeta. split.
  - eexists. split; [by vm_compute|]. by vm_compute.
  - eexists. split; by vm_compute.
Qed.

(** C6, amended.  Once the record of a session has left the store, no
    sequence of [get], [update], [refresh], [cleanup] and [delete] calls, nor
    of [create] calls that draw other identifiers, makes [getSession] return
    a session for that identifier again.  A record leaves the store by
    [delete], or, once the clock has passed its [expiresAt], by the next
    [get], [update] or [cleanup].  (A session that expired but was not evicted
    yet is not covered: [refresh] revives it.) *)
Theorem C6_evicted_session_never_returns
    (sessionId : string) (sessions : gmap string Session)
    (calls : list (Z * StoreOp)) (now : Z) (rl : RateLimiter.t)
    (interval : Z) :
  Forall (λ call, ¬ creates sessionId call) calls →
  let observe st :=
    (SessionManager.getSession now sessionId
       {| SessionManager.store := run calls st;
          SessionManager.rateLimiter := rl;
          SessionManager.cleanupInterval := interval |}).1 in
  (sessions !! sessionId = None → observe sessions = None)
  ∧ observe (InMemorySessionStore.delete sessionId sessions) = None
  ∧ (∀ s later d, sessions !! sessionId = Some s → expiresAt s < later →
       observe (InMemorySessionStore.get later sessionId sessions).2 = None
       ∧ observe (InMemorySessionStore.update later sessionId d sessions) = None
       ∧ observe (InMemorySessionStore.cleanup later sessions) = None).
Proof.
  intros Hfresh observe.
  assert (Hobs : ∀ st : gmap string Session,
             st !! sessionId = None → observe st = None).
  { intros st Hst. unfold observe, SessionManager.getSession. simpl.
    rewrite get_absent; [done|]. by apply run_absent. }
  split_and!.
  - apply Hobs.
  - apply Hobs. apply lookup_delete_eq.
  - intros s later d Hs Hlt. split_and!; apply Hobs.
    + rewrite (get_expired _ _ _ s) by done. apply lookup_delete_eq.
    + unfold InMemorySessionStore.update.
      rewrite (get_expired _ _ _ s) by done. apply lookup_delete_eq.
    + unfold InMemorySessionStore.cleanup. apply map_lookup_filter_None.
      right. intros s' Hs'. simpl. simplify_eq. tauto.
Qed.

(** An evicted session, then a refresh, an update, a creation for the same
    user, a read and a sweep. *)
Lemma C6_witness :
  let config := {| sessionTTL := 10; defaultRateLimit := mkRule 60000 10 |} in
  let st0 := (InMemorySessionStore.create config "s1" 0 "u1" ∅ ∅).2 in
  let calls :=
    [(12, OpRefresh config "s1"); (13, OpUpdate "s1" {[ "k" := JsNum 1 ]});
     (14, OpCreate config "s2" "u1" ∅); (15, OpGet "s1"); (16, OpCleanup)] in
  (SessionManager.getSession 17 "s1"
     {| SessionManager.store :=
          run calls (InMemorySessionStore.get 11 "s1" st0).2;
        SessionManager.rateLimiter := RateLimiter.new config [];
        SessionManager.cleanupInterval := 300000 |}).1 = None.
Proof.
  cbv zeta.
  refine (proj1 (proj2 (proj2
    (C6_evicted_session_never_returns "s1" _ _ 17 _ _ _)) _ 11 ∅ _ _)).
  - repeat constructor; vm_compute; try tauto; discriminate.
  - by vm_compute.
  - by vm_compute.
Defined.

(** ** The session manager *)

(** C1 (evaluation of the code).  [createSession] never returns a session
    and never reports an exceeded rate: the limiter has no member
    [tryAcquire], so every call, the first one for a user included, throws a
    [TypeError] and leaves the manager as it was. *)
Theorem C1_createSession_throws_TypeError
    (config : SecurityConfig) (sessionId : string)
    (now_cleanup now_limit now : Z) (uid : string) (d : gmap string JsValue)
    (m : SessionManager.t) :
  SessionManager.createSession config sessionId now_cleanup now_limit now uid d m
  = (inl (TypeError "this.rateLimiter.tryAcquire is not a function"), m).
Proof. reflexivity. Qed.

(** ** Configuration *)



(** ** Brute-force protection *)

Section brute_force.
Import BruteForceProtection.

Lemma recordFailedAttempt_count now x bf :
  failedAttempts (recordFailedAttempt now x bf) !! x
  = Some (default 0 (failedAttempts bf !! x) + 1).
Proof. unfold recordFailedAttempt. simpl. apply lookup_insert_eq. Qed.

Lemma recordFailedAttempt_time now x bf :
  lastAttemptTime (recordFailedAttempt now x bf) !! x = Some now.
Proof. unfold recordFailedAttempt. simpl. apply lookup_insert_eq. Qed.

Lemma record_failures_params x times : ∀ bf,
  maxAttempts (record_failures x times bf) = maxAttempts bf
  ∧ lockoutDuration (record_failures x times bf) = lockoutDuration bf.
Proof.
  unfold record_failures. induction times as [|now times IH]; intros bf.
  - done.
  - simpl. destruct (IH (recordFailedAttempt now x bf)) as [-> ->]. done.
Qed.

Lemma record_failures_count x times : ∀ bf,
  default 0 (failedAttempts (record_failures x times bf) !! x)
  = default 0 (failedAttempts bf !! x) + Z.of_nat (length times).
Proof.
  unfold record_failures. induction times as [|now times IH]; intros bf.
  - simpl. lia.
  - simpl foldl. rewrite IH, recordFailedAttempt_count. simpl. lia.
Qed.

Lemma record_failures_time x times tl : ∀ bf,
  last times = Some tl →
  lastAttemptTime (record_failures x times bf) !! x = Some tl.
Proof.
  unfold record_failures. induction times as [|now times IH]; intros bf Hl.
  - done.
  - destruct times as [|now' times].
    + simpl in *. simplify_eq. apply recordFailedAttempt_time.
    + simpl foldl. apply IH. by rewrite last_cons_cons in Hl.
Qed.

(** What [isAllowed] answers, by whether the sweep removes the identifier. *)
Lemma isAllowed_result now x bf :
  (isAllowed now x bf).1
  = if purged now bf x then 0 <? maxAttempts bf
    else default 0 (failedAttempts bf !! x) <? maxAttempts bf.
Proof.
  unfold isAllowed, clearExpiredLockouts. simpl.
  rewrite map_lookup_filter.
  destruct (purged now bf x) eqn:Hp.
  - destruct (failedAttempts bf !! x) as [c|]; simpl; [|done].
    rewrite option_guard_False; [done|]. simpl. congruence.
  - destruct (failedAttempts bf !! x) as [c|]; simpl; [|done].
    by rewrite option_guard_True.
Qed.

Lemma isAllowed_purges now y bf x :
  purged now bf x = true →
  failedAttempts (isAllowed now y bf).2 !! x = None
  ∧ lastAttemptTime (isAllowed now y bf).2 !! x = None.
Proof.
  intros Hp. unfold isAllowed, clearExpiredLockouts. simpl.
  split; apply map_lookup_filter_None; right; intros c _; simpl; congruence.
Qed.

Lemma purged_true now bf x c tl :
  failedAttempts bf !! x = Some c → lastAttemptTime bf !! x = Some tl →
  tl ≠ 0 → c >= maxAttempts bf → now - tl > lockoutDuration bf →
  purged now bf x = true.
Proof.
  intros Hc Ht Hz Hge Hgt. unfold purged, lockout_expired. rewrite Hc, Ht.
  destruct (Z.eqb_spec tl 0); [done|].
  destruct (Z.geb_spec c (maxAttempts bf)); [|lia].
  destruct (Z.gtb_spec (now - tl) (lockoutDuration bf)); [done|lia].
Qed.

Lemma purged_false_within now bf x tl :
  lastAttemptTime bf !! x = Some tl → now - tl <= lockoutDuration bf →
  purged now bf x = false.
Proof.
  intros Ht Hle. unfold purged, lockout_expired. rewrite Ht.
  destruct (failedAttempts bf !! x) as [c|]; [|done].
  destruct (Z.gtb_spec (now - tl) (lockoutDuration bf)); [lia|].
  by rewrite andb_false_r.
Qed.

(** [counts_positive] holds at construction and every method keeps it. *)
Lemma counts_positive_new m d : counts_positive (new m d).
Proof. intros identifier c Hc. simpl in Hc. by rewrite lookup_empty in Hc. Qed.

Lemma counts_positive_default bf x :
  counts_positive bf → 0 <= default 0 (failedAttempts bf !! x).
Proof.
  intros Hpos. destruct (failedAttempts bf !! x) as [c|] eqn:Hc; simpl; [|done].
  specialize (Hpos x c Hc). lia.
Qed.

Lemma counts_positive_recordFailedAttempt now x bf :
  counts_positive bf → counts_positive (recordFailedAttempt now x bf).
Proof.
  intros Hpos identifier c. unfold recordFailedAttempt. simpl.
  destruct (decide (x = identifier)) as [->|Hne].
  - rewrite lookup_insert_eq. intros [= <-].
    pose proof (counts_positive_default bf identifier Hpos). lia.
  - rewrite lookup_insert_ne by done. apply Hpos.
Qed.

Lemma counts_positive_resetAttempts x bf :
  counts_positive bf → counts_positive (resetAttempts x bf).
Proof.
  intros Hpos identifier c. unfold resetAttempts. simpl.
  intros [_ Hc]%lookup_delete_Some. by apply (Hpos identifier).
Qed.

Lemma counts_positive_isAllowed now x bf :
  counts_positive bf → counts_positive (isAllowed now x bf).2.
Proof.
  intros Hpos identifier c. unfold isAllowed, clearExpiredLockouts. simpl.
  intros [Hc _]%map_lookup_filter_Some. by apply (Hpos identifier).
Qed.

End brute_force.

(** C4, as the specification states it, fails for [maxAttempts = 0]: the
    answer is [count < 0], so not even [resetAttempts] makes [isAllowed]
    return true. *)
Lemma C4_counterexample_zero_maxAttempts :
  (BruteForceProtection.isAllowed 1 "x"
     (BruteForceProtection.resetAttempts "x"
        (BruteForceProtection.new 0 1000))).1 ≠ true.
Proof. by vm_compute. Qed.

(** C4, amended.  For [maxAttempts = m >= 1] and [lockoutDurationMs = d]:
    after [m] successive [recordFailedAttempt(x)] calls, [isAllowed(x)]
    returns false as long as no more than [d] ms have passed since the last
    of them; [resetAttempts(x)] makes the next [isAllowed(x)] return true;
    and once more than [d] ms have passed since the last failed attempt for
    [x], stamped by a clock that did not read 0, [isAllowed(x)] returns true
    without a reset, a locked record being removed altogether (count and
    time stamp). *)
Theorem C4_lock_reset_and_expiry
    (m d : Z) (x : string) (bf : BruteForceProtection.t) :
  BruteForceProtection.maxAttempts bf = m →
  BruteForceProtection.lockoutDuration bf = d →
  1 <= m →
  (∀ times tl now,
     0 <= default 0 (BruteForceProtection.failedAttempts bf !! x) →
     Z.of_nat (length times) = m → last times = Some tl → now - tl <= d →
     (BruteForceProtection.isAllowed now x (record_failures x times bf)).1
     = false)
  ∧ (∀ now,
       (BruteForceProtection.isAllowed now x
          (BruteForceProtection.resetAttempts x bf)).1 = true)
  ∧ (∀ tl now,
       BruteForceProtection.lastAttemptTime bf !! x = Some tl → tl ≠ 0 →
       now - tl > d →
       let r := BruteForceProtection.isAllowed now x bf in
       r.1 = true
       ∧ (default 0 (BruteForceProtection.failedAttempts bf !! x) >= m →
          BruteForceProtection.failedAttempts r.2 !! x = None
          ∧ BruteForceProtection.lastAttemptTime r.2 !! x = None)).
Proof.
  intros Hm Hd Hpos. split_and!.
  - intros times tl now Hc Hlen Hlast Hle.
    destruct (record_failures_params x times bf) as [Hm' Hd'].
    rewrite isAllowed_result.
    rewrite (purged_false_within _ _ _ tl);
      [|by apply record_failures_time|lia].
    rewrite record_failures_count, Hm'. apply Z.ltb_ge. lia.
  - intros now. rewrite isAllowed_result.
    assert (Hx : BruteForceProtection.failedAttempts
                   (BruteForceProtection.resetAttempts x bf) !! x = None)
      by apply lookup_delete_eq.
    unfold BruteForceProtection.purged. rewrite Hx. simpl.
    apply Z.ltb_lt. lia.
  - intros tl now Ht Hz Hgt. cbv zeta.
    destruct (BruteForceProtection.failedAttempts bf !! x) as [c|] eqn:Hc.
    + destruct (Z.lt_ge_cases c m) as [Hlt|Hge].
      * split; [|simpl; lia]. rewrite isAllowed_result.
        destruct (BruteForceProtection.purged now bf x);
          [|rewrite Hc; simpl]; apply Z.ltb_lt; lia.
      * assert (Hp : BruteForceProtection.purged now bf x = true).
        { apply (purged_true _ _ _ c tl); try done; lia. }
        split.
        -- rewrite isAllowed_result, Hp. apply Z.ltb_lt. lia.
        -- intros _. by apply isAllowed_purges.
    + split; [|simpl; lia]. rewrite isAllowed_result.
      unfold BruteForceProtection.purged. rewrite Hc. simpl.
      apply Z.ltb_lt. lia.
Qed.

(** A limit of 3 and a lockout of 1000 ms: locked at 1007, open after a
    reset, open again at 1008. *)
Lemma C4_witness :
  let bf := BruteForceProtection.new 3 1000 in
  (BruteForceProtection.isAllowed 1007 "x"
     (record_failures "x" [5; 6; 7] bf)).1 = false
  ∧ (BruteForceProtection.isAllowed 8 "x"
       (BruteForceProtection.resetAttempts "x"
          (record_failures "x" [5; 6; 7] bf))).1 = true
  ∧ (BruteForceProtection.isAllowed 1008 "x"
       (record_failures "x" [5; 6; 7] bf)).1 = true.
Proof.
  cbv zeta. split_and!.
  - refine (proj1 (C4_lock_reset_and_expiry 3 1000 "x" _ _ _ _)
              [5; 6; 7] 7 1007 _ _ _ _); by vm_compute.
  - refine (proj1 (proj2 (C4_lock_reset_and_expiry 3 1000 "x"
              (record_failures "x" [5; 6; 7] _) _ _ _)) 8); by vm_compute.
  - refine (proj1 (proj2 (proj2 (C4_lock_reset_and_expiry 3 1000 "x"
              (record_failures "x" [5; 6; 7] _) _ _ _)) 7 1008 _ _ _));
      by vm_compute.
Defined.

(** C5, as the specification states it, fails: [recordFailedAttempt] does
    not purge.  With three failures at 1, 2 and 3 ms, a limit of 3 and a
    lockout of 1000 ms, the failure recorded at 5000 ms, with nothing run in
    between, leaves the count at 4. *)
Lemma C5_counterexample_record_does_not_purge :
  let bf := record_failures "x" [1; 2; 3] (BruteForceProtection.new 3 1000) in
  BruteForceProtection.failedAttempts bf !! "x" = Some 3
  ∧ BruteForceProtection.lastAttemptTime bf !! "x" = Some 3
  ∧ 5000 - 3 > BruteForceProtection.lockoutDuration bf
  ∧ BruteForceProtection.failedAttempts
      (BruteForceProtection.recordFailedAttempt 5000 "x" bf) !! "x"
    ≠ Some 1.
Proof. cbv zeta. split_and!; by vm_compute. Qed.

(** C5, amended.  For an identifier whose record has
    [count >= maxAttempts] and a non-zero time stamp, an [isAllowed] call
    (for any identifier) made once [now - lastAttemptAt > lockoutDuration]
    removes the record, count and time stamp, rather than decrementing it,
    and a failure recorded after that call leaves the identifier with
    [count = 1].  [recordFailedAttempt] itself removes nothing: recorded
    without such a call in between, the failure adds one to the old count. *)
Theorem C5_purge_on_isAllowed_then_fresh_count
    (bf : BruteForceProtection.t) (x y : string) (c tl now later : Z) :
  BruteForceProtection.failedAttempts bf !! x = Some c →
  c >= BruteForceProtection.maxAttempts bf →
  BruteForceProtection.lastAttemptTime bf !! x = Some tl →
  tl ≠ 0 →
  now - tl > BruteForceProtection.lockoutDuration bf →
  let bf1 := (BruteForceProtection.isAllowed now y bf).2 in
  BruteForceProtection.failedAttempts bf1 !! x = None
  ∧ BruteForceProtection.lastAttemptTime bf1 !! x = None
  ∧ BruteForceProtection.failedAttempts
      (BruteForceProtection.recordFailedAttempt later x bf1) !! x = Some 1
  ∧ BruteForceProtection.failedAttempts
      (BruteForceProtection.recordFailedAttempt later x bf) !! x
    = Some (c + 1).
Proof.
  intros Hc Hge Ht Hz Hgt bf1.
  destruct (isAllowed_purges now y bf x) as [Hfa Hla].
  { by apply (purged_true _ _ _ c tl). }
  split_and!; [done|done|..].
  - rewrite recordFailedAttempt_count. fold bf1 in Hfa. by rewrite Hfa.
  - rewrite recordFailedAttempt_count. by rewrite Hc.
Qed.

(** The locked record of [x] is swept by a check for [y] at 5000. *)
Lemma C5_witness :
  let bf := record_failures "x" [1; 2; 3] (BruteForceProtection.new 3 1000) in
  let bf1 := (BruteForceProtection.isAllowed 5000 "y" bf).2 in
  BruteForceProtection.failedAttempts bf1 !! "x" = None
  ∧ BruteForceProtection.lastAttemptTime bf1 !! "x" = None
  ∧ BruteForceProtection.failedAttempts
      (BruteForceProtection.recordFailedAttempt 5001 "x" bf1) !! "x" = Some 1
  ∧ BruteForceProtection.failedAttempts
      (BruteForceProtection.recordFailedAttempt 5001 "x" bf) !! "x"
    = Some (3 + 1).
Proof.
  cbv zeta.
  refine (C5_purge_on_isAllowed_then_fresh_count _ "x" "y" 3 3 5000 5001
            _ _ _ _ _); by vm_compute.
Defined.

(** ** The rate limiter *)

(** *** Keys *)

Lemma pretty_N_char_no_colon x : pretty_N_char x ≠ ":"%char.
Proof. unfold pretty_N_char. by repeat case_match. Qed.

Lemma pretty_N_go_no_colon x : ∀ s, no_colon s → no_colon (pretty_N_go x s).
Proof.
  induction (N.lt_wf_0 x) as [x _ IH]. intros s Hs.
  destruct (decide (x = 0)%N) as [->|Hx].
  - by rewrite pretty_N_go_0.
  - rewrite pretty_N_go_step by lia. apply IH.
    + apply N.div_lt; lia.
    + split; [apply pretty_N_char_no_colon|done].
Qed.

Lemma pretty_N_no_colon (x : N) : no_colon (pretty x).
Proof.
  unfold pretty, pretty_N. case_decide.
  - by split.
  - by apply pretty_N_go_no_colon.
Qed.

Lemma pretty_Z_no_colon (z : Z) : no_colon (pretty z).
Proof.
  destruct z as [|p|p].
  - by split.
  - apply (pretty_N_no_colon (Npos p)).
  - split; [done|]. apply (pretty_N_no_colon (Npos p)).
Qed.

Lemma append_nil_l s : "" +:+ s = s.
Proof. reflexivity. Qed.

Lemma append_cons_l c a s : String c a +:+ s = String c (a +:+ s).
Proof. reflexivity. Qed.

Lemma no_colon_before_colon a p : ¬ no_colon (a +:+ ":" +:+ p).
Proof.
  induction a as [|c a IH].
  - rewrite append_nil_l, append_cons_l. by intros [? _].
  - rewrite append_cons_l. intros [_ ?]. by apply IH.
Qed.

Lemma colon_split_inj a b p q :
  no_colon p → no_colon q → a +:+ ":" +:+ p = b +:+ ":" +:+ q →
  a = b ∧ p = q.
Proof.
  intros Hp Hq. revert b. induction a as [|c a IH]; intros [|c' b] Heq.
  - repeat (rewrite append_nil_l in Heq || rewrite append_cons_l in Heq).
    by injection Heq as ->.
  - repeat (rewrite append_nil_l in Heq || rewrite append_cons_l in Heq).
    injection Heq as _ Heq. subst p.
    by apply no_colon_before_colon in Hp.
  - repeat (rewrite append_nil_l in Heq || rewrite append_cons_l in Heq).
    injection Heq as _ Heq. subst q.
    by apply no_colon_before_colon in Hq.
  - rewrite !(append_cons_l _ _ (":" +:+ _)) in Heq.
    injection Heq as -> Heq. destruct (IH _ Heq) as [-> ->]. done.
Qed.

(** One key per client and window length. *)
Lemma key_inj a b rule1 rule2 :
  RateLimiter.key a rule1 = RateLimiter.key b rule2
  ↔ a = b ∧ windowMs rule1 = windowMs rule2.
Proof.
  unfold RateLimiter.key. split.
  - intros Heq. apply colon_split_inj in Heq as [-> Heq];
      [|apply pretty_Z_no_colon..].
    split; [done|]. by apply (inj pretty).
  - by intros [-> ->].
Qed.

(** The keys of two clients never coincide. *)
Lemma key_client_inj a b rule1 rule2 :
  RateLimiter.key a rule1 = RateLimiter.key b rule2 → a = b.
Proof. by intros [? _]%key_inj. Qed.

Lemma owned_by_disjoint a b k : a ≠ b → owned_by a k → ¬ owned_by b k.
Proof.
  intros Hne [r1 ->] [r2 Heq]. by apply key_client_inj in Heq.
Qed.

(** *** The cleanup pass and the counters *)

Lemma cleanup_lookup now (st : gmap string RateLimitInfo) k :
  RateLimiter.cleanup now st !! k
  = match st !! k with
    | Some limitInfo =>
        if decide (now > resetTime limitInfo) then None else Some limitInfo
    | None => None
    end.
Proof.
  unfold RateLimiter.cleanup. rewrite map_lookup_filter.
  destruct (st !! k) as [limitInfo|]; simpl; [|done].
  case_decide.
  - by rewrite option_guard_False by tauto.
  - by rewrite option_guard_True.
Qed.

Lemma cleanup_same_up_to_closed now (st : gmap string RateLimitInfo) :
  same_up_to_closed now (RateLimiter.cleanup now st) st.
Proof.
  intros k. rewrite cleanup_lookup.
  destruct (st !! k) as [limitInfo|]; [|by left].
  case_decide; [right|by left]. split; [done|]. exists limitInfo.
  split; [done|lia].
Qed.

(** A later pass removes whatever an earlier pass removed. *)
Lemma cleanup_cleanup earlier now (st : gmap string RateLimitInfo) :
  earlier <= now →
  RateLimiter.cleanup now (RateLimiter.cleanup earlier st)
  = RateLimiter.cleanup now st.
Proof.
  intros Hle. apply map_eq. intros k. rewrite !cleanup_lookup.
  destruct (st !! k) as [limitInfo|]; [|done].
  repeat case_decide; try done; lia.
Qed.

Lemma bump_spec_roll now rule row :
  RateLimiter.bump now rule row = spec_roll now rule row.
Proof.
  unfold RateLimiter.bump, spec_roll. destruct row as [limitInfo|]; simpl.
  - destruct (Z.gtb_spec now (resetTime limitInfo)); case_decide; done || lia.
  - by destruct (now >? now + windowMs rule).
Qed.

(** The callback cannot tell a swept row from a row whose window closed. *)
Lemma bump_swept now_cleanup now rule swept full k :
  same_up_to_closed now_cleanup swept full → now_cleanup <= now →
  RateLimiter.bump now rule (swept !! k) = spec_roll now rule (full !! k).
Proof.
  intros Hsim Hle. rewrite bump_spec_roll.
  destruct (Hsim k) as [->|[-> (limitInfo & -> & Hlt)]]; [done|].
  simpl. case_decide; [done|lia].
Qed.

Lemma same_up_to_closed_insert now_cleanup swept full k row :
  same_up_to_closed now_cleanup swept full →
  same_up_to_closed now_cleanup (<[k := row]> swept) (<[k := row]> full).
Proof.
  intros Hsim k'. destruct (decide (k = k')) as [->|Hne].
  - left. by rewrite !lookup_insert_eq.
  - rewrite !lookup_insert_ne by done. apply Hsim.
Qed.

Lemma spec_counters_cons now clientId st rule rs :
  spec_counters now clientId st (rule :: rs)
  = spec_counters now clientId
      (<[RateLimiter.key clientId rule :=
           spec_roll now rule (st !! RateLimiter.key clientId rule)]> st) rs.
Proof. reflexivity. Qed.

(** The loop of [isAllowed] on a swept table against the counters of the
    specification on the full one. *)
Lemma visit_loop_refines now_cleanup now clientId rs :
  now_cleanup <= now →
  ∀ swept full flag,
    same_up_to_closed now_cleanup swept full →
    let acc := foldl (RateLimiter.visit now clientId) (swept, flag) rs in
    same_up_to_closed now_cleanup acc.1 (spec_counters now clientId full rs)
    ∧ (∀ k, swept !! k = full !! k →
         acc.1 !! k = spec_counters now clientId full rs !! k)
    ∧ (∀ rule, rule ∈ rs →
         acc.1 !! RateLimiter.key clientId rule
         = spec_counters now clientId full rs !! RateLimiter.key clientId rule)
    ∧ (acc.2 = false ↔
         flag = false
         ∨ ∃ i rule, rs !! i = Some rule
             ∧ spec_post_count now clientId full rs i rule > maxRequests rule).
Proof.
  intros Hle. induction rs as [|rule rs IH]; intros swept full flag Hsim.
  - simpl. split_and!; try done.
    + intros rule Hin. by apply elem_of_nil in Hin.
    + split; [by left|]. intros [?|(i & rule & Hi & _)]; [done|].
      by rewrite lookup_nil in Hi.
  - cbv zeta. simpl foldl. rewrite spec_counters_cons.
    set (k0 := RateLimiter.key clientId rule).
    set (row := spec_roll now rule (full !! k0)).
    assert (Hstep : RateLimiter.visit now clientId (swept, flag) rule
                    = (<[k0 := row]> swept,
                       if count row >? maxRequests rule then false else flag)).
    { unfold RateLimiter.visit. simpl. fold k0.
      by rewrite (bump_swept now_cleanup now rule swept full). }
    rewrite Hstep. clear Hstep.
    destruct (IH (<[k0 := row]> swept) (<[k0 := row]> full)
                (if count row >? maxRequests rule then false else flag))
      as (IH1 & IH2 & IH3 & IH4).
    { by apply same_up_to_closed_insert. }
    split_and!.
    + done.
    + intros k Hk. apply IH2. destruct (decide (k0 = k)) as [->|Hne].
      * by rewrite !lookup_insert_eq.
      * by rewrite !lookup_insert_ne.
    + intros rule' [->|Hin]%elem_of_cons.
      * apply IH2. fold k0. by rewrite !lookup_insert_eq.
      * by apply IH3.
    + rewrite IH4. split.
      * intros [Hflag|(i & rule' & Hi & Hgt)].
        -- destruct (Z.gtb_spec (count row) (maxRequests rule)) as [Hgt|_].
           ++ right. exists 0%nat, rule. split; [done|].
              unfold spec_post_count. simpl. fold k0. fold row. lia.
           ++ by left.
        -- right. exists (S i), rule'. split; [done|].
           unfold spec_post_count in *. simpl take.
           by rewrite spec_counters_cons.
      * intros [->|(i & rule' & Hi & Hgt)].
        -- left. by destruct (count row >? maxRequests rule).
        -- destruct i as [|i].
           ++ simpl in Hi. injection Hi as <-. left.
              unfold spec_post_count in Hgt. simpl in Hgt.
              fold k0 in Hgt. fold row in Hgt.
              destruct (Z.gtb_spec (count row) (maxRequests rule)); [done|lia].
           ++ right. exists i, rule'. split; [done|].
              unfold spec_post_count in *. simpl take in Hgt.
              by rewrite spec_counters_cons in Hgt.
Qed.

(** The loop leaves the rows of other keys alone. *)
Lemma visit_loop_other now clientId rs k :
  (∀ rule, rule ∈ rs → k ≠ RateLimiter.key clientId rule) →
  ∀ st flag,
    (foldl (RateLimiter.visit now clientId) (st, flag) rs).1 !! k = st !! k.
Proof.
  induction rs as [|rule rs IH]; intros Hk st flag; [done|].
  simpl foldl.
  destruct (RateLimiter.visit now clientId (st, flag) rule)
    as [st' flag'] eqn:Hstep.
  rewrite IH.
  - unfold RateLimiter.visit in Hstep. simpl in Hstep.
    injection Hstep as <- _.
    rewrite lookup_insert_ne; [done|]. intros Heq.
    by apply (Hk rule); [apply elem_of_cons; left|].
  - intros rule' Hin. apply Hk. apply elem_of_cons. by right.
Qed.

(** [isAllowed] on a limiter with one rule. *)
Lemma isAllowed_one_rule now_cleanup now clientId rl rule row :
  RateLimiter.rules rl = [rule] →
  RateLimiter.storage rl !! RateLimiter.key clientId rule = row →
  now_cleanup <= now →
  let r := RateLimiter.isAllowed now_cleanup now clientId rl in
  let row' := spec_roll now rule row in
  r.1 = negb (count row' >? maxRequests rule)
  ∧ RateLimiter.rules r.2 = [rule]
  ∧ RateLimiter.storage r.2 !! RateLimiter.key clientId rule = Some row'.
Proof.
  intros Hrules Hrow Hle. cbv zeta. unfold RateLimiter.isAllowed.
  rewrite Hrules. unfold RateLimiter.visit. simpl.
  rewrite (bump_swept now_cleanup now rule _ (RateLimiter.storage rl))
    by auto using cleanup_same_up_to_closed.
  rewrite Hrow, lookup_insert_eq. split_and!; [|done..].
  by destruct (_ >? _).
Qed.

(** The scenario of the specification: a limit of 2 per 1000 ms. *)
Lemma two_allowed_third_denied_then_rollover
    config clientId c1 n1 c2 n2 c3 n3 c4 n4 :
  c1 <= n1 → n1 <= c2 → c2 <= n2 → n2 <= c3 → c3 <= n3 → n3 <= n1 + 1000 →
  c4 <= n4 → n1 + 1000 < n4 →
  (isAllowed_seq clientId [(c1, n1); (c2, n2); (c3, n3); (c4, n4)]
     (RateLimiter.new config [mkRule 1000 2])).1
  = [true; true; false; true].
Proof.
  intros H1 H12 H2 H23 H3 Hin H4 Hout. cbn [isAllowed_seq fst snd].
  set (rule := mkRule 1000 2).
  set (rl0 := RateLimiter.new config [rule]).
  destruct (isAllowed_one_rule c1 n1 clientId rl0 rule None)
    as (R1 & Rs1 & St1); [done|apply lookup_empty|done|].
  set (rl1 := (RateLimiter.isAllowed c1 n1 clientId rl0).2) in *.
  destruct (isAllowed_one_rule c2 n2 clientId rl1 rule _ Rs1 St1)
    as (R2 & Rs2 & St2); [lia|].
  set (rl2 := (RateLimiter.isAllowed c2 n2 clientId rl1).2) in *.
  destruct (isAllowed_one_rule c3 n3 clientId rl2 rule _ Rs2 St2)
    as (R3 & Rs3 & St3); [lia|].
  set (rl3 := (RateLimiter.isAllowed c3 n3 clientId rl2).2) in *.
  destruct (isAllowed_one_rule c4 n4 clientId rl3 rule _ Rs3 St3)
    as (R4 & _ & _); [lia|].
  rewrite R1, R2, R3, R4. clear R1 R2 R3 R4 St1 St2 St3 Rs1 Rs2 Rs3.
  unfold spec_roll. simpl.
  rewrite (decide_False (P := n2 > n1 + 1000)) by lia. simpl.
  rewrite (decide_False (P := n3 > n1 + 1000)) by lia. simpl.
  rewrite (decide_True (P := n4 > n1 + 1000)) by lia. done.
Qed.

(** The loop of [isAllowed] is the counting of the specification, with the
    limit of a rule tested right after the rule was counted. *)
Lemma visit_loop_spec now clientId rs st flag :
  let acc := foldl (RateLimiter.visit now clientId) (st, flag) rs in
  acc.1 = spec_counters now clientId st rs
  ∧ (acc.2 = false ↔
       flag = false
       ∨ ∃ i rule, rs !! i = Some rule
           ∧ spec_post_count now clientId st rs i rule > maxRequests rule).
Proof.
  cbv zeta.
  destruct (visit_loop_refines now now clientId rs (Z.le_refl now) st st flag)
    as (_ & Hall & _ & Hflag); [by left|].
  split; [|done]. apply map_eq. intros k. by apply Hall.
Qed.

Lemma spec_counters_app now clientId st rs1 rs2 :
  spec_counters now clientId st (rs1 ++ rs2)
  = spec_counters now clientId (spec_counters now clientId st rs1) rs2.
Proof. unfold spec_counters. by rewrite foldl_app. Qed.

Lemma spec_counters_other now clientId rs k :
  (∀ rule, rule ∈ rs → k ≠ RateLimiter.key clientId rule) →
  ∀ st, spec_counters now clientId st rs !! k = st !! k.
Proof.
  induction rs as [|rule rs IH]; intros Hk st; [done|].
  rewrite spec_counters_cons, IH.
  - rewrite lookup_insert_ne; [done|]. intros Heq.
    by apply (Hk rule); [apply elem_of_cons; left|].
  - intros rule' Hin. apply Hk. apply elem_of_cons. by right.
Qed.

(** When no two rules have the same window length, a rule is counted once
    per call: the row of its key after the call is the row written when the
    rule was counted. *)
Lemma spec_counters_distinct now clientId st rs i rule :
  NoDup (windowMs <$> rs) → rs !! i = Some rule →
  spec_counters now clientId st rs !! RateLimiter.key clientId rule
  = Some (spec_roll now rule
            (spec_counters now clientId st (take i rs)
               !! RateLimiter.key clientId rule)).
Proof.
  intros Hnodup Hi.
  rewrite <- (take_drop_middle rs i rule Hi) in Hnodup.
  rewrite <- (take_drop_middle rs i rule Hi) at 1.
  rewrite fmap_app, fmap_cons in Hnodup.
  apply NoDup_app in Hnodup as (_ & _ & Hnodup).
  apply NoDup_cons in Hnodup as [Hnotin _].
  rewrite spec_counters_app, spec_counters_cons, spec_counters_other.
  - apply lookup_insert_eq.
  - intros rule' Hin Heq. apply Hnotin.
    apply key_inj in Heq as [_ ->]. by apply list_elem_of_fmap_2.
Qed.

(** C3, as the specification states it, fails when two rules have the same
    window length, and so share a counter: with the rules 1 per 1000 ms and
    5 per 1000 ms, the first request of a client is allowed although, once
    every rule was counted, the counter of the first rule holds 2, which
    exceeds its limit of 1. *)
Lemma C3_counterexample_shared_window_counter :
  let rl := RateLimiter.new defaultConfig [mkRule 1000 1; mkRule 1000 5] in
  let r := RateLimiter.isAllowed 0 0 "10.0.0.1" rl in
  r.1 = true
  ∧ ∃ rule row,
      rule ∈ RateLimiter.rules rl
      ∧ RateLimiter.storage r.2 !! RateLimiter.key "10.0.0.1" rule = Some row
      ∧ count row > maxRequests rule.
Proof.
  cbv zeta. split; [by vm_compute|].
  exists (mkRule 1000 1), (mkInfo 2 1000). split_and!.
  - apply elem_of_cons. by left.
  - by vm_compute.
  - simpl. lia.
Qed.

(** C3, amended.  [isAllowed(clientId)] first deletes the rows whose
    [resetTime] is before the clock, then counts every rule, in order,
    whatever the outcome: the table after the call is the table of the
    counters of all the rules ([spec_counters] does not look at the
    limits).  There is one counter per key [clientId:windowMs]: a counter
    whose [resetTime] is before the clock rolls over ([count := 1],
    [resetTime := now + windowMs]), any other counter counts one more, a
    key without a row counting from 0 in a fresh window; two keys coincide
    exactly when the client and the window length do, so rules with the
    same window length share a counter.  The limit of a rule is tested
    right after the rule was counted, not once every rule was counted: the
    call returns false exactly when the count of some rule, right after
    that rule was counted, exceeds the limit of the rule.  When no two rules
    have the same window length, that count is the one the table holds
    after the call.  When the clock read of the deletion pass is not after
    the read of the loop, the pass is not observable in the counters of the
    client nor in the result: they are those of the table before the call.
    With the single rule 2 per 1000 ms, two calls in the window opened by
    the first return true, a third one in it returns false, and a call
    after the window returns true. *)
Theorem C3_isAllowed_tests_each_rule_after_its_increment :
  (∀ (rl : RateLimiter.t) (now_cleanup now : Z) (clientId : string),
     let r := RateLimiter.isAllowed now_cleanup now clientId rl in
     let swept := RateLimiter.cleanup now_cleanup (RateLimiter.storage rl) in
     RateLimiter.rules r.2 = RateLimiter.rules rl
     ∧ RateLimiter.storage r.2
       = spec_counters now clientId swept (RateLimiter.rules rl)
     ∧ (∀ k, (∀ rule, rule ∈ RateLimiter.rules rl →
                k ≠ RateLimiter.key clientId rule) →
          RateLimiter.storage r.2 !! k = swept !! k)
     ∧ (r.1 = false ↔
          ∃ i rule, RateLimiter.rules rl !! i = Some rule
            ∧ spec_post_count now clientId swept (RateLimiter.rules rl) i rule
              > maxRequests rule)
     ∧ (NoDup (windowMs <$> RateLimiter.rules rl) →
          r.1 = false ↔
          ∃ rule row,
            rule ∈ RateLimiter.rules rl
            ∧ RateLimiter.storage r.2 !! RateLimiter.key clientId rule
              = Some row
            ∧ count row > maxRequests rule)
     ∧ (now_cleanup <= now →
          (∀ rule, rule ∈ RateLimiter.rules rl →
             RateLimiter.storage r.2 !! RateLimiter.key clientId rule
             = spec_counters now clientId (RateLimiter.storage rl)
                 (RateLimiter.rules rl) !! RateLimiter.key clientId rule)
          ∧ (r.1 = false ↔
               ∃ i rule, RateLimiter.rules rl !! i = Some rule
                 ∧ spec_post_count now clientId (RateLimiter.storage rl)
                     (RateLimiter.rules rl) i rule > maxRequests rule)))
  ∧ (∀ a b rule1 rule2,
       RateLimiter.key a rule1 = RateLimiter.key b rule2
       ↔ a = b ∧ windowMs rule1 = windowMs rule2)
  ∧ (∀ config clientId c1 n1 c2 n2 c3 n3 c4 n4,
       c1 <= n1 → n1 <= c2 → c2 <= n2 → n2 <= c3 → c3 <= n3 →
       n3 <= n1 + 1000 → c4 <= n4 → n1 + 1000 < n4 →
       (isAllowed_seq clientId [(c1, n1); (c2, n2); (c3, n3); (c4, n4)]
          (RateLimiter.new config [mkRule 1000 2])).1
       = [true; true; false; true]).
Proof.
  split; [|split; [apply key_inj|apply two_allowed_third_denied_then_rollover]].
  intros rl now_cleanup now clientId. cbv zeta.
  unfold RateLimiter.isAllowed. cbn [fst snd RateLimiter.storage
    RateLimiter.rules].
  set (swept := RateLimiter.cleanup now_cleanup (RateLimiter.storage rl)).
  destruct (visit_loop_spec now clientId (RateLimiter.rules rl) swept true)
    as [Hcounters Hflag].
  assert (Hresult :
    (foldl (RateLimiter.visit now clientId) (swept, true)
       (RateLimiter.rules rl)).2 = false
    ↔ ∃ i rule, RateLimiter.rules rl !! i = Some rule
        ∧ spec_post_count now clientId swept (RateLimiter.rules rl) i rule
          > maxRequests rule).
  { rewrite Hflag. split; [|by right]. by intros [?|?]. }
  split_and!.
  - done.
  - done.
  - intros k Hk. by apply visit_loop_other.
  - done.
  - intros Hnodup. rewrite Hresult, Hcounters. split.
    + intros (i & rule & Hi & Hgt). exists rule. eexists. split_and!.
      * by eapply list_elem_of_lookup_2.
      * by apply spec_counters_distinct.
      * done.
    + intros (rule & row & Hin & Hrow & Hgt).
      apply list_elem_of_lookup_1 in Hin as [i Hi]. exists i, rule.
      split; [done|].
      rewrite (spec_counters_distinct _ _ _ _ i rule Hnodup Hi) in Hrow.
      injection Hrow as <-. done.
  - intros Hle.
    destruct (visit_loop_refines now_cleanup now clientId
                (RateLimiter.rules rl) Hle swept (RateLimiter.storage rl) true)
      as (_ & _ & Hkeys & Hflag'); [apply cleanup_same_up_to_closed|].
    split; [apply Hkeys|]. rewrite Hflag'. split; [|by right].
    by intros [?|?].
Qed.

(** Two rules on a fresh limiter, and the scenario at fixed clock values. *)
Lemma C3_witness :
  (let r := RateLimiter.isAllowed 5 6 "10.0.0.1"
              (RateLimiter.new defaultConfig [mkRule 1000 2; mkRule 60000 0]) in
   r.1 = false
   ↔ ∃ rule row,
       rule ∈ [mkRule 1000 2; mkRule 60000 0]
       ∧ RateLimiter.storage r.2 !! RateLimiter.key "10.0.0.1" rule = Some row
       ∧ count row > maxRequests rule)
  ∧ (isAllowed_seq "10.0.0.1" [(0, 0); (1, 1); (1000, 1000); (1001, 1001)]
       (RateLimiter.new defaultConfig [mkRule 1000 2])).1
    = [true; true; false; true].
Proof.
  cbv zeta. split.
  - refine (proj1 (proj2 (proj2 (proj2 (proj2
      (proj1 C3_isAllowed_tests_each_rule_after_its_increment
         (RateLimiter.new defaultConfig [mkRule 1000 2; mkRule 60000 0])
         5 6 "10.0.0.1"))))) _).
    apply (bool_decide_unpack _). by vm_compute.
  - refine (proj2 (proj2 C3_isAllowed_tests_each_rule_after_its_increment)
              defaultConfig "10.0.0.1" 0 0 1 1 1000 1000 1001 1001
              _ _ _ _ _ _ _ _); lia.
Defined.

(** *** Independence of clients *)

Lemma cleanup_agree_off a now st1 st2 :
  agree_off a st1 st2 →
  agree_off a (RateLimiter.cleanup now st1) (RateLimiter.cleanup now st2).
Proof. intros Hag k Hk. rewrite !cleanup_lookup. by rewrite (Hag k Hk). Qed.

(** The loop for [b] reads and writes the keys of [b] only. *)
Lemma visit_loop_agree_off a b now rs :
  a ≠ b →
  ∀ st1 st2 flag,
    agree_off a st1 st2 →
    (foldl (RateLimiter.visit now b) (st1, flag) rs).2
    = (foldl (RateLimiter.visit now b) (st2, flag) rs).2
    ∧ agree_off a (foldl (RateLimiter.visit now b) (st1, flag) rs).1
                  (foldl (RateLimiter.visit now b) (st2, flag) rs).1.
Proof.
  intros Hne. induction rs as [|rule rs IH]; intros st1 st2 flag Hag; [done|].
  simpl foldl. unfold RateLimiter.visit at 2 4 6 8. simpl.
  assert (Hrow : st1 !! RateLimiter.key b rule = st2 !! RateLimiter.key b rule).
  { apply Hag. apply (owned_by_disjoint b a); [done|]. by exists rule. }
  rewrite Hrow. apply IH.
  intros k Hk. destruct (decide (RateLimiter.key b rule = k)) as [->|Hk'].
  - by rewrite !lookup_insert_eq.
  - rewrite !lookup_insert_ne by done. by apply Hag.
Qed.

Lemma isAllowed_agree_off a b now_cleanup now rl1 rl2 :
  a ≠ b → RateLimiter.rules rl1 = RateLimiter.rules rl2 →
  agree_off a (RateLimiter.cleanup now_cleanup (RateLimiter.storage rl1))
              (RateLimiter.cleanup now_cleanup (RateLimiter.storage rl2)) →
  (RateLimiter.isAllowed now_cleanup now b rl1).1
  = (RateLimiter.isAllowed now_cleanup now b rl2).1
  ∧ RateLimiter.rules (RateLimiter.isAllowed now_cleanup now b rl1).2
    = RateLimiter.rules (RateLimiter.isAllowed now_cleanup now b rl2).2
  ∧ agree_off a
      (RateLimiter.storage (RateLimiter.isAllowed now_cleanup now b rl1).2)
      (RateLimiter.storage (RateLimiter.isAllowed now_cleanup now b rl2).2).
Proof.
  intros Hne Hrules Hag. unfold RateLimiter.isAllowed. simpl.
  rewrite Hrules.
  destruct (visit_loop_agree_off a b now (RateLimiter.rules rl2) Hne _ _ true Hag)
    as [Hflag Hst].
  by split_and!.
Qed.

Lemma isAllowed_seq_agree_off a b calls :
  a ≠ b →
  ∀ rl1 rl2,
    RateLimiter.rules rl1 = RateLimiter.rules rl2 →
    agree_off a (RateLimiter.storage rl1) (RateLimiter.storage rl2) →
    (isAllowed_seq b calls rl1).1 = (isAllowed_seq b calls rl2).1.
Proof.
  intros Hne. induction calls as [|[c n] calls IH]; intros rl1 rl2 Hrules Hag.
  - done.
  - cbn [isAllowed_seq fst snd].
    destruct (isAllowed_agree_off a b c n rl1 rl2 Hne Hrules)
      as (-> & Hrules' & Hag'); [by apply cleanup_agree_off|].
    f_equal. by apply IH.
Qed.

(** What [isAllowed(a)] does to the rows of the other clients: the cleanup
    pass and no more. *)
Lemma isAllowed_other_rows a now_cleanup now rl k :
  ¬ owned_by a k →
  RateLimiter.storage (RateLimiter.isAllowed now_cleanup now a rl).2 !! k
  = RateLimiter.cleanup now_cleanup (RateLimiter.storage rl) !! k.
Proof.
  intros Hk. unfold RateLimiter.isAllowed. simpl. apply visit_loop_other.
  intros rule _ ->. apply Hk. by exists rule.
Qed.

(** C10.  A call [isAllowed(a)] does not change the result of any later
    sequence of [isAllowed(b)] calls for another client [b], on a clock that
    does not go back: the call for [a] writes the keys of [a] only, and
    the rows of [b] that its cleanup pass deletes have a [resetTime] that the
    first later call would find passed as well.  Likewise, deleting at any
    earlier time the rows whose [resetTime] had passed leaves a call as it
    is, result and table. *)
Theorem C10_other_client_unaffected
    (rl : RateLimiter.t) (a b : string) (now_cleanup now : Z)
    (calls : list (Z * Z)) :
  a ≠ b →
  Forall (λ call, now_cleanup <= call.1) calls →
  (isAllowed_seq b calls (RateLimiter.isAllowed now_cleanup now a rl).2).1
  = (isAllowed_seq b calls rl).1
  ∧ (∀ earlier c n, earlier <= c →
       RateLimiter.isAllowed c n b
         {| RateLimiter.storage :=
              RateLimiter.cleanup earlier (RateLimiter.storage rl);
            RateLimiter.rules := RateLimiter.rules rl |}
       = RateLimiter.isAllowed c n b rl).
Proof.
  intros Hne Hmono. split.
  - destruct calls as [|[c n] calls]; [done|].
    inversion Hmono as [|? ? Hc _]; subst. simpl in Hc.
    cbn [isAllowed_seq fst snd].
    set (rl' := (RateLimiter.isAllowed now_cleanup now a rl).2).
    destruct (isAllowed_agree_off a b c n rl' rl Hne eq_refl)
      as (-> & Hrules & Hag).
    + intros k Hk. rewrite cleanup_lookup. unfold rl'.
      rewrite isAllowed_other_rows by done.
      rewrite <- cleanup_lookup. by rewrite cleanup_cleanup.
    + f_equal. by apply isAllowed_seq_agree_off with a.
  - intros earlier c n Hle. unfold RateLimiter.isAllowed. simpl.
    by rewrite cleanup_cleanup.
Qed.

(** A call for [a] sweeps the closed row of [b]; the later calls for [b]
    answer the same. *)
Lemma C10_witness :
  let rl := {| RateLimiter.storage :=
                 {[ RateLimiter.key "b" (mkRule 1000 2) := mkInfo 2 100 ]};
               RateLimiter.rules := [mkRule 1000 2] |} in
  (isAllowed_seq "b" [(150, 150); (151, 152); (153, 153)]
     (RateLimiter.isAllowed 101 102 "a" rl).2).1
  = (isAllowed_seq "b" [(150, 150); (151, 152); (153, 153)] rl).1.
Proof.
  cbv zeta.
  refine (proj1 (C10_other_client_unaffected _ "a" "b" 101 102
                   [(150, 150); (151, 152); (153, 153)] _ _)).
  - discriminate.
  - repeat constructor; simpl; lia.
Defined.

(** ** Session creation behind the limiter *)

(** Had [createSession] called the method the limiter does have,
    [isAllowed], it would return the new session while the limiter allows the
    user and throw the rate-limit error otherwise. *)
Lemma createSession_calling_isAllowed
    config sessionId now_cleanup now_limit now uid d (m : SessionManager.t) :
  let r := RateLimiter.isAllowed now_cleanup now_limit uid
             (SessionManager.rateLimiter m) in
  let c := InMemorySessionStore.create config sessionId now uid d
             (SessionManager.store m) in
  SessionManager.createSession_calling "isAllowed" config sessionId
    now_cleanup now_limit now uid d m
  = if r.1
    then (inr c.1, {| SessionManager.store := c.2;
                      SessionManager.rateLimiter := r.2;
                      SessionManager.cleanupInterval :=
                        SessionManager.cleanupInterval m |})
    else (inl (Error "Rate limit exceeded for session creation"),
          {| SessionManager.store := SessionManager.store m;
             SessionManager.rateLimiter := r.2;
             SessionManager.cleanupInterval :=
               SessionManager.cleanupInterval m |}).
Proof.
  cbv zeta. unfold SessionManager.createSession_calling.
  cbn [RateLimiter.lookup_method RateLimiter.invoke].
  change (RateLimiter.lookup_method "isAllowed")
    with (Some RateLimiter.m_isAllowed).
  cbn [RateLimiter.invoke].
  by destruct (RateLimiter.isAllowed now_cleanup now_limit uid
                 (SessionManager.rateLimiter m)).1.
Qed.

(** With one creation per minute, the first creation for a user would then
    succeed and a second one within the minute would be refused. *)
Lemma createSession_calling_isAllowed_one_per_minute
    config id1 id2 c1 n1 t1 c2 n2 t2 uid d1 d2 st :
  c1 <= n1 → n1 <= c2 → c2 <= n2 → n2 <= n1 + 60000 →
  let m0 := {| SessionManager.store := st;
               SessionManager.rateLimiter :=
                 RateLimiter.new config [mkRule 60000 1];
               SessionManager.cleanupInterval := 300000 |} in
  let r1 := SessionManager.createSession_calling "isAllowed" config id1
              c1 n1 t1 uid d1 m0 in
  let r2 := SessionManager.createSession_calling "isAllowed" config id2
              c2 n2 t2 uid d2 r1.2 in
  r1.1 = inr (mkSession id1 uid t1 (t1 + sessionTTL config) d1)
  ∧ r2.1 = inl (Error "Rate limit exceeded for session creation").
Proof.
  intros H1 H12 H2 Hin. cbv zeta.
  set (rule := mkRule 60000 1).
  set (rl0 := RateLimiter.new config [rule]).
  destruct (isAllowed_one_rule c1 n1 uid rl0 rule None)
    as (R1 & Rs1 & St1); [done|apply lookup_empty|done|].
  destruct (isAllowed_one_rule c2 n2 uid
              (RateLimiter.isAllowed c1 n1 uid rl0).2 rule _ Rs1 St1)
    as (R2 & _ & _); [lia|].
  rewrite !createSession_calling_isAllowed. cbn [SessionManager.rateLimiter].
  rewrite R1. cbn [spec_roll count maxRequests rule negb Z.gtb Z.compare
                   Pos.compare Pos.compare_cont fst snd
                   SessionManager.rateLimiter].
  rewrite R2. unfold spec_roll. simpl.
  by rewrite (decide_False (P := n2 > n1 + 60000)) by lia.
Qed.

(** ** The clock *)

(** The independence of clients rests on a clock that does not go back: if
    the clock read of the later call is before the one of the call for [a],
    the row of [b] that the call for [a] swept is missed. *)
Example clock_going_back_is_observed :
  let rl := {| RateLimiter.storage :=
                 {[ RateLimiter.key "b" (mkRule 1000 2) := mkInfo 2 100 ]};
               RateLimiter.rules := [mkRule 1000 2] |} in
  (RateLimiter.isAllowed 50 50 "b" rl).1 = false
  ∧ (RateLimiter.isAllowed 50 50 "b"
       (RateLimiter.isAllowed 101 101 "a" rl).2).1 = true.
Proof. by vm_compute. Qed.

(** * Further properties of the code *)

(** ** The session store: creation, deletion, refresh *)

(** X1.  A created session has the given user and data, the clock read as
    [createdAt] and [createdAt + sessionTTL] as [expiresAt]; whatever the
    store held under the drawn identifier is replaced.  A later [get]
    returns exactly this record as long as the clock has not passed
    [now + sessionTTL], and otherwise returns nothing and removes it: with a
    negative [sessionTTL] the session is gone at the first read. *)
Theorem X1_create_then_get
    (config : SecurityConfig) (sessionId uid : string) (now later : Z)
    (d : gmap string JsValue) (sessions : gmap string Session) :
  let created :=
    InMemorySessionStore.create config sessionId now uid d sessions in
  created.1 = mkSession sessionId uid now (now + sessionTTL config) d
  ∧ InMemorySessionStore.get later sessionId created.2
    = (if decide (later <= now + sessionTTL config)
       then (Some created.1, created.2)
       else (None, delete sessionId sessions))
  ∧ (∀ other, other ≠ sessionId → created.2 !! other = sessions !! other).
Proof.
  cbv zeta. unfold InMemorySessionStore.create. simpl. split_and!.
  - done.
  - case_decide.
    + apply get_valid; [apply lookup_insert_eq|simpl; lia].
    + erewrite get_expired; [|apply lookup_insert_eq|simpl; lia].
      by rewrite delete_insert_eq.
  - intros other Hne. by rewrite lookup_insert_ne.
Qed.

(** X2.  [delete] is idempotent, does nothing for an identifier that is not
    stored, touches no other session, and after it [get] returns nothing for
    the identifier at any clock value and leaves the store alone. *)
Theorem X2_delete_then_get
    (sessionId : string) (now : Z) (sessions : gmap string Session) :
  let sessions' := InMemorySessionStore.delete sessionId sessions in
  InMemorySessionStore.delete sessionId sessions' = sessions'
  ∧ (sessions !! sessionId = None → sessions' = sessions)
  ∧ InMemorySessionStore.get now sessionId sessions' = (None, sessions')
  ∧ (∀ other, other ≠ sessionId → sessions' !! other = sessions !! other).
Proof.
  cbv zeta. unfold InMemorySessionStore.delete. split_and!.
  - apply delete_delete_eq.
  - apply delete_id.
  - apply get_absent, lookup_delete_eq.
  - intros other Hne. by rewrite lookup_delete_ne.
Qed.

Lemma refresh_present config now sessionId (sessions : gmap string Session) s :
  sessions !! sessionId = Some s →
  InMemorySessionStore.refresh config now sessionId sessions
  = <[sessionId := set_expiresAt (now + sessionTTL config) s]> sessions.
Proof. unfold InMemorySessionStore.refresh. by intros ->. Qed.

Lemma refresh_absent config now sessionId (sessions : gmap string Session) :
  sessions !! sessionId = None →
  InMemorySessionStore.refresh config now sessionId sessions = sessions.
Proof. unfold InMemorySessionStore.refresh. by intros ->. Qed.

Lemma set_expiresAt_twice e1 e2 s :
  set_expiresAt e2 (set_expiresAt e1 s) = set_expiresAt e2 s.
Proof. reflexivity. Qed.

(** X3.  Successive [refresh] calls on a stored session compose: only the
    last one counts.  After them the record is the old one with
    [expiresAt] set to the last clock read plus the [sessionTTL] then in
    effect, however long ago the session had expired, and every other
    session is as before; a [get] then returns it exactly when the clock has
    not passed that bound.  On an identifier that is not stored the calls do
    nothing. *)
Theorem X3_refresh_last_call_wins
    (sessionId : string) (sessions : gmap string Session)
    (refreshes : list (Z * SecurityConfig)) (later : Z) :
  let sessions' :=
    foldl (λ st call, InMemorySessionStore.refresh call.2 call.1 sessionId st)
          sessions refreshes in
  (sessions !! sessionId = None → sessions' = sessions)
  ∧ (∀ s now config,
       sessions !! sessionId = Some s → last refreshes = Some (now, config) →
       let s' := set_expiresAt (now + sessionTTL config) s in
       sessions' = <[sessionId := s']> sessions
       ∧ InMemorySessionStore.get later sessionId sessions'
         = (if decide (later <= now + sessionTTL config)
            then (Some s', sessions')
            else (None, delete sessionId sessions))).
Proof.
  cbv zeta. split.
  - revert sessions. induction refreshes as [|call refreshes IH];
      intros sessions Habs; [done|].
    simpl. rewrite refresh_absent by done. by apply IH.
  - intros s now config Hs Hlast.
    assert (Hstore :
      foldl (λ st call, InMemorySessionStore.refresh call.2 call.1 sessionId st)
            sessions refreshes
      = <[sessionId := set_expiresAt (now + sessionTTL config) s]> sessions).
    { revert sessions s Hs Hlast.
      induction refreshes as [|call refreshes IH]; intros sessions s Hs Hlast;
        [done|].
      simpl foldl. rewrite (refresh_present _ _ _ _ s) by done.
      destruct refreshes as [|call' refreshes].
      - simpl in *. by simplify_eq.
      - rewrite last_cons_cons in Hlast.
        erewrite IH; [|apply lookup_insert_eq|done].
        by rewrite set_expiresAt_twice, insert_insert_eq. }
    rewrite Hstore. split; [done|]. case_decide.
    + apply get_valid; [apply lookup_insert_eq|simpl; lia].
    + erewrite get_expired; [|apply lookup_insert_eq|simpl; lia].
      by rewrite delete_insert_eq.
Qed.

(** X4.  The periodic sweep and the eviction on read agree, on a clock that
    does not go back: a sweep made earlier never changes what a later [get]
    returns, a later sweep absorbs an earlier one, and sweeping after a read
    gives the same store as sweeping alone. *)
Theorem X4_sweep_and_lazy_eviction_agree
    (earlier now : Z) (sessionId : string) (sessions : gmap string Session) :
  earlier <= now →
  (InMemorySessionStore.get now sessionId
     (InMemorySessionStore.cleanup earlier sessions)).1
  = (InMemorySessionStore.get now sessionId sessions).1
  ∧ InMemorySessionStore.cleanup now
      (InMemorySessionStore.cleanup earlier sessions)
    = InMemorySessionStore.cleanup now sessions
  ∧ InMemorySessionStore.cleanup now
      (InMemorySessionStore.get now sessionId sessions).2
    = InMemorySessionStore.cleanup now sessions.
Proof.
  intros Hle.
  assert (Hlook : ∀ t (st : gmap string Session) k,
    InMemorySessionStore.cleanup t st !! k
    = match st !! k with
      | Some s => if decide (expiresAt s < t) then None else Some s
      | None => None
      end).
  { intros t st k. unfold InMemorySessionStore.cleanup.
    rewrite map_lookup_filter. destruct (st !! k) as [s|]; simpl; [|done].
    case_decide.
    - by rewrite option_guard_False by tauto.
    - by rewrite option_guard_True. }
  split_and!.
  - unfold InMemorySessionStore.get at 1. rewrite Hlook.
    destruct (get_cases now sessionId sessions)
      as [[Hs ->]|[(s & Hs & Hlt & ->)|(s & Hs & Hge & ->)]]; rewrite Hs.
    + done.
    + case_decide; [done|]. by destruct (Z.ltb_spec (expiresAt s) now); [|lia].
    + case_decide; [lia|]. by destruct (Z.ltb_spec (expiresAt s) now); [lia|].
  - apply map_eq. intros k. rewrite !Hlook.
    destruct (sessions !! k) as [s|]; [|done].
    repeat case_decide; done || lia.
  - apply map_eq. intros k. rewrite !Hlook.
    destruct (get_cases now sessionId sessions)
      as [[Hs ->]|[(s & Hs & Hlt & ->)|(s & Hs & Hge & ->)]]; simpl; try done.
    unfold InMemorySessionStore.delete.
    destruct (decide (k = sessionId)) as [->|Hne].
    + rewrite lookup_delete_eq, Hs. by case_decide.
    + by rewrite lookup_delete_ne.
Qed.

(** A session survives the sweep of 5 and is read at 7; one that expired at
    3 is gone either way. *)
Lemma X4_witness :
  let s := mkSession "s1" "u1" 0 10 ∅ in
  (InMemorySessionStore.get 7 "s1"
     (InMemorySessionStore.cleanup 5 {[ "s1" := s ]})).1
  = (InMemorySessionStore.get 7 "s1" {[ "s1" := s ]}).1.
Proof.
  cbv zeta.
  refine (proj1 (X4_sweep_and_lazy_eviction_agree 5 7 "s1" _ _)). lia.
Defined.

(** ** The session store: what the records are *)

Lemma created_by_snoc calls call s :
  created_by calls s → created_by (calls ++ [call]) s.
Proof.
  intros (config & d & Hin). exists config, d. apply elem_of_app. by left.
Qed.

(** One call keeps every record under its own identifier and traceable to a
    [create] call. *)
Lemma run_op_provenance calls call (sessions : gmap string Session) :
  (∀ k s, sessions !! k = Some s → session_id s = k ∧ created_by calls s) →
  ∀ k s, run_op sessions call !! k = Some s →
         session_id s = k ∧ created_by (calls ++ [call]) s.
Proof.
  intros Hinv k s. destruct call as [now op]. unfold run_op. simpl.
  assert (Hold : ∀ k s, sessions !! k = Some s →
            session_id s = k ∧ created_by (calls ++ [(now, op)]) s).
  { intros k' s' Hs'. destruct (Hinv k' s' Hs').
    split; [done|]. by apply created_by_snoc. }
  destruct op as [config id' uid d|id'|id' d|id'|config id'|].
  - simpl. destruct (decide (id' = k)) as [->|Hne].
    + rewrite lookup_insert_eq. intros [= <-]. split; [done|].
      exists config, d. simpl. apply elem_of_app. right. by apply list_elem_of_singleton.
    + rewrite lookup_insert_ne by done. apply Hold.
  - destruct (get_cases now id' sessions)
      as [[Hs ->]|[(s0 & Hs & Hlt & ->)|(s0 & Hs & Hge & ->)]]; simpl;
      try apply Hold.
    intros [_ Hk]%lookup_delete_Some. by apply Hold.
  - unfold InMemorySessionStore.update.
    destruct (get_cases now id' sessions)
      as [[Hs ->]|[(s0 & Hs & Hlt & ->)|(s0 & Hs & Hge & ->)]];
      try apply Hold.
    + intros [_ Hk]%lookup_delete_Some. by apply Hold.
    + destruct (decide (id' = k)) as [->|Hne].
      * rewrite lookup_insert_eq. intros [= <-].
        destruct (Hold k s0 Hs) as [? (config & d' & Hin)].
        split; [done|]. by exists config, d'.
      * rewrite lookup_insert_ne by done. apply Hold.
  - unfold InMemorySessionStore.delete.
    intros [_ Hk]%lookup_delete_Some. by apply Hold.
  - unfold InMemorySessionStore.refresh.
    destruct (sessions !! id') as [s0|] eqn:Hs; [|apply Hold].
    destruct (decide (id' = k)) as [->|Hne].
    + rewrite lookup_insert_eq. intros [= <-].
      destruct (Hold k s0 Hs) as [? (config' & d' & Hin)].
      split; [done|]. by exists config', d'.
    + rewrite lookup_insert_ne by done. apply Hold.
  - unfold InMemorySessionStore.cleanup.
    intros [Hk _]%map_lookup_filter_Some. by apply Hold.
Qed.

Lemma run_snoc calls call (sessions : gmap string Session) :
  run (calls ++ [call]) sessions = run_op (run calls sessions) call.
Proof. unfold run. by rewrite foldl_app. Qed.

(** X5.  Whatever calls were made on a store that started empty, a record it
    holds is stored under its own [id], and its [id], [userId] and
    [createdAt] are those of a [create] call that was made: no operation
    changes them, moves a record to another key or invents one. *)
Theorem X5_stored_sessions_keep_their_identity
    (calls : list (Z * StoreOp)) (k : string) (s : Session) :
  run calls InMemorySessionStore.new !! k = Some s →
  session_id s = k ∧ created_by calls s.
Proof.
  revert k s. induction calls as [|call calls IH] using rev_ind; intros k s.
  - unfold run, InMemorySessionStore.new. simpl. by rewrite lookup_empty.
  - rewrite run_snoc. by apply run_op_provenance.
Qed.

Lemma X5_witness :
  let config := {| sessionTTL := 10; defaultRateLimit := mkRule 60000 10 |} in
  let calls :=
    [(1, OpCreate config "s1" "u1" ∅); (2, OpUpdate "s1" {[ "k" := JsNum 1 ]});
     (3, OpCreate config "s2" "u2" ∅); (4, OpRefresh config "s1");
     (5, OpDelete "s2"); (6, OpCleanup)] in
  let s := mkSession "s1" "u1" 1 14 {[ "k" := JsNum 1 ]} in
  session_id s = "s1" ∧ created_by calls s.
Proof.
  cbv zeta. apply X5_stored_sessions_keep_their_identity. by vm_compute.
Defined.

(** ** The session store: updates *)

Lemma set_data_twice d1 d2 s : set_data d2 (set_data d1 s) = set_data d2 s.
Proof. reflexivity. Qed.

Lemma set_data_same s : set_data (data s) s = s.
Proof. by destruct s. Qed.

(** X6.  Two updates of a session, on a clock that does not go back, are
    one update with the merged data, the keys of the later update winning;
    and an update with no key at all is exactly a read: it changes nothing,
    except that it evicts the session when it has expired. *)
Theorem X6_updates_compose
    (now1 now2 : Z) (sessionId : string) (d1 d2 : gmap string JsValue)
    (sessions : gmap string Session) :
  now1 <= now2 →
  InMemorySessionStore.update now2 sessionId d2
    (InMemorySessionStore.update now1 sessionId d1 sessions)
  = InMemorySessionStore.update now2 sessionId (spread d1 d2) sessions
  ∧ InMemorySessionStore.update now1 sessionId ∅ sessions
    = (InMemorySessionStore.get now1 sessionId sessions).2.
Proof.
  intros Hle. split.
  - destruct (sessions !! sessionId) as [s|] eqn:Hs.
    + destruct (Z.lt_ge_cases (expiresAt s) now2) as [Hlt2|Hge2].
      * unfold InMemorySessionStore.update at 3.
        rewrite (get_expired now2 _ _ s) by done.
        destruct (Z.lt_ge_cases (expiresAt s) now1) as [Hlt1|Hge1].
        -- unfold InMemorySessionStore.update at 2.
           rewrite (get_expired now1 _ _ s) by done.
           unfold InMemorySessionStore.update.
           rewrite get_absent by apply lookup_delete_eq. done.
        -- unfold InMemorySessionStore.update at 2.
           rewrite (get_valid now1 _ _ s) by (done || lia).
           unfold InMemorySessionStore.update.
           erewrite get_expired; [|apply lookup_insert_eq|simpl; lia].
           unfold InMemorySessionStore.delete. by rewrite delete_insert_eq.
      * unfold InMemorySessionStore.update at 3.
        rewrite (get_valid now2 _ _ s) by (done || lia).
        unfold InMemorySessionStore.update at 2.
        rewrite (get_valid now1 _ _ s) by (done || lia).
        unfold InMemorySessionStore.update.
        erewrite get_valid; [|apply lookup_insert_eq|simpl; lia].
        rewrite insert_insert_eq, set_data_twice. simpl. unfold spread.
        by rewrite (assoc_L (∪)).
    + unfold InMemorySessionStore.update at 2 3.
      rewrite !get_absent by done. unfold InMemorySessionStore.update.
      by rewrite get_absent.
  - unfold InMemorySessionStore.update.
    destruct (get_cases now1 sessionId sessions)
      as [[Hs ->]|[(s & Hs & Hlt & ->)|(s & Hs & Hge & ->)]]; simpl; try done.
    unfold spread. rewrite (left_id_L ∅ (∪)), set_data_same.
    by apply insert_id.
Qed.

Lemma X6_witness :
  let s := mkSession "s1" "u1" 0 10 {[ "a" := JsNum 0 ]} in
  let sessions : gmap string Session := {[ "s1" := s ]} in
  InMemorySessionStore.update 6 "s1" {[ "a" := JsNum 2 ]}
    (InMemorySessionStore.update 5 "s1"
       {[ "a" := JsNum 1; "b" := JsBool true ]} sessions)
  = InMemorySessionStore.update 6 "s1"
      (spread {[ "a" := JsNum 1; "b" := JsBool true ]} {[ "a" := JsNum 2 ]})
      sessions.
Proof.
  cbv zeta.
  refine (proj1 (X6_updates_compose 5 6 "s1" _ _ _ _)). lia.
Defined.

(** ** The request hook of the session manager *)

(** X7.  What [SessionManager.middleware()] leaves in [req.session].
    Without a [sessionId] cookie (no cookies, no such cookie, or an empty
    value) and for an identifier that is not stored, it is [null] and the
    manager is untouched.  For a stored session that has expired at the first
    read it is [null] and the record is removed.  For a valid session the
    hook refreshes first and reads again: it attaches the record with
    [expiresAt] moved to the clock read of the refresh plus [sessionTTL],
    provided the second read is not after that bound; if it is (a negative
    [sessionTTL], or a zero one and a clock tick), the hook itself removes
    the valid session and attaches [null].  The limiter of the manager is
    never touched. *)
Theorem X7_session_hook_attaches_refreshed_session
    (config : SecurityConfig) (now1 now2 now3 : Z) (req : Request)
    (m : SessionManager.t) :
  let r := SessionManager_middleware config now1 now2 now3 req m in
  let cookie := req_cookies req ≫= (λ cookies, cookies !! "sessionId") in
  SessionManager.rateLimiter r.2 = SessionManager.rateLimiter m
  ∧ SessionManager.cleanupInterval r.2 = SessionManager.cleanupInterval m
  ∧ (truthy cookie = false → r = (None, m))
  ∧ (∀ sessionId, cookie = Some sessionId → sessionId ≠ "" →
       (SessionManager.store m !! sessionId = None → r = (None, m))
       ∧ (∀ s, SessionManager.store m !! sessionId = Some s →
            expiresAt s < now1 →
            r.1 = None
            ∧ SessionManager.store r.2
              = delete sessionId (SessionManager.store m))
       ∧ (∀ s, SessionManager.store m !! sessionId = Some s →
            expiresAt s >= now1 →
            let s' := set_expiresAt (now2 + sessionTTL config) s in
            if decide (now3 <= now2 + sessionTTL config)
            then r.1 = Some s'
                 ∧ SessionManager.store r.2
                   = <[sessionId := s']> (SessionManager.store m)
            else r.1 = None
                 ∧ SessionManager.store r.2
                   = delete sessionId (SessionManager.store m))).
Proof.
  cbv zeta. unfold SessionManager_middleware.
  destruct m as [st rl interval]. simpl.
  set (cookie := req_cookies req ≫= (λ cookies, cookies !! "sessionId")).
  destruct (truthy cookie) eqn:Htruthy.
  - destruct cookie as [sessionId|]; [|done]. simpl in *.
    case_decide; [done|]. clear Htruthy.
    unfold SessionManager.getSession, SessionManager.refreshSession in *.
    simpl in *.
    destruct (get_cases now1 sessionId st)
      as [[Hs Hget]|[(s & Hs & Hlt & Hget)|(s & Hs & Hge & Hget)]];
      rewrite Hget in *; simpl.
    + split_and!; try done. intros ? [= <-] Hne. split_and!.
      * done.
      * intros s. by rewrite Hs.
      * intros s. by rewrite Hs.
    + split_and!; try done. intros ? [= <-] Hne. split_and!.
      * by rewrite Hs.
      * done.
      * intros s' Hs'. simplify_eq. lia.
    + rewrite (refresh_present _ _ _ _ s) by done.
      assert (Hthird :
        InMemorySessionStore.get now3 sessionId
          (<[sessionId := set_expiresAt (now2 + sessionTTL config) s]> st)
        = if decide (now3 <= now2 + sessionTTL config)
          then (Some (set_expiresAt (now2 + sessionTTL config) s),
                <[sessionId := set_expiresAt (now2 + sessionTTL config) s]> st)
          else (None, delete sessionId st)).
      { case_decide.
        - apply get_valid; [apply lookup_insert_eq|simpl; lia].
        - erewrite get_expired; [|apply lookup_insert_eq|simpl; lia].
          by rewrite delete_insert_eq. }
      rewrite Hthird. split_and!.
      * by case_decide.
      * by case_decide.
      * done.
      * intros ? [= <-] Hne. split_and!.
        -- by rewrite Hs.
        -- intros s' Hs'. simplify_eq. lia.
        -- intros s' Hs' _. simplify_eq. by case_decide.
  - split_and!; try done. intros sessionId Hc Hne. rewrite Hc in Htruthy.
    simpl in Htruthy. by case_decide.
Qed.

(** ** The rate limiter: reset, first request, quota *)

Lemma reset_lookup clientId rs : ∀ (st : gmap string RateLimitInfo) k,
  foldl (λ st rule, delete (RateLimiter.key clientId rule) st) st rs !! k
  = if decide (Exists (λ rule, k = RateLimiter.key clientId rule) rs)
    then None else st !! k.
Proof.
  induction rs as [|rule rs IH]; intros st k; cbn [foldl].
  - by rewrite decide_False by (by intros ?%Exists_nil).
  - rewrite IH.
    destruct (decide (Exists (λ r, k = RateLimiter.key clientId r) rs))
      as [Hrs|Hrs].
    + by rewrite decide_True by (by apply Exists_cons_tl).
    + destruct (decide (k = RateLimiter.key clientId rule)) as [->|Hne].
      * rewrite decide_True by (by apply Exists_cons_hd).
        apply lookup_delete_eq.
      * rewrite decide_False by (by intros [?|?]%Exists_cons).
        by rewrite lookup_delete_ne.
Qed.

(** X8.  [reset(clientId)] removes the counter of every rule for that client
    and nothing else: the rows of the other clients and the rules stay, and
    a second [reset] changes nothing. *)
Theorem X8_reset_clears_the_client_only
    (clientId : string) (rl : RateLimiter.t) :
  let rl' := RateLimiter.reset clientId rl in
  RateLimiter.rules rl' = RateLimiter.rules rl
  ∧ (∀ rule, rule ∈ RateLimiter.rules rl →
       RateLimiter.storage rl' !! RateLimiter.key clientId rule = None)
  ∧ (∀ other rule, other ≠ clientId →
       RateLimiter.storage rl' !! RateLimiter.key other rule
       = RateLimiter.storage rl !! RateLimiter.key other rule)
  ∧ (∀ k, (∀ rule, rule ∈ RateLimiter.rules rl →
             k ≠ RateLimiter.key clientId rule) →
       RateLimiter.storage rl' !! k = RateLimiter.storage rl !! k)
  ∧ RateLimiter.reset clientId rl' = rl'.
Proof.
  cbv zeta. unfold RateLimiter.reset. simpl. split_and!.
  - done.
  - intros rule Hin. rewrite reset_lookup. case_decide as H; [done|].
    destruct H. apply Exists_exists. by exists rule.
  - intros other rule Hne. rewrite reset_lookup. case_decide as H; [|done].
    apply Exists_exists in H as (r & _ & Heq).
    by apply key_client_inj in Heq.
  - intros k Hk. rewrite reset_lookup. case_decide as H; [|done].
    apply Exists_exists in H as (r & Hin & ->). by destruct (Hk r Hin).
  - f_equal. apply map_eq. intros k. rewrite !reset_lookup.
    by case_decide.
Qed.

Lemma cleanup_lookup_None now (st : gmap string RateLimitInfo) k :
  st !! k = None → RateLimiter.cleanup now st !! k = None.
Proof. intros H. by rewrite cleanup_lookup, H. Qed.

(** The loop on a client without rows, for rules with distinct windows. *)
Lemma visit_loop_fresh now clientId rs :
  NoDup (windowMs <$> rs) →
  ∀ (st : gmap string RateLimitInfo) flag,
    (∀ rule, rule ∈ rs → st !! RateLimiter.key clientId rule = None) →
    (foldl (RateLimiter.visit now clientId) (st, flag) rs).2
    = flag && forallb (λ rule, 1 <=? maxRequests rule) rs.
Proof.
  induction rs as [|rule rs IH]; intros Hnd st flag Habs.
  - simpl. by rewrite andb_true_r.
  - rewrite fmap_cons in Hnd. apply NoDup_cons in Hnd as [Hnotin Hnd].
    simpl foldl.
    assert (Hstep : RateLimiter.visit now clientId (st, flag) rule
              = (<[RateLimiter.key clientId rule :=
                     mkInfo 1 (now + windowMs rule)]> st,
                 if 1 >? maxRequests rule then false else flag)).
    { unfold RateLimiter.visit. simpl.
      rewrite (Habs rule) by (apply elem_of_cons; by left).
      by rewrite bump_spec_roll. }
    rewrite Hstep, IH; [|done|].
    + simpl. destruct (Z.gtb_spec 1 (maxRequests rule));
        destruct (Z.leb_spec 1 (maxRequests rule)); try lia;
        by rewrite ?andb_false_r.
    + intros rule' Hin. rewrite lookup_insert_ne.
      * apply Habs. apply elem_of_cons. by right.
      * intros [_ Hw]%key_inj. apply Hnotin. rewrite Hw.
        by apply list_elem_of_fmap_2.
Qed.

(** X9.  The first request of a client.  When the rules have pairwise
    distinct windows, a client without counters (a new client, or one that
    was just [reset]) is allowed exactly when every rule admits at least one
    request: with a rule whose [maxRequests] is 0 or negative even the first
    request is refused. *)
Theorem X9_first_request
    (now_cleanup now : Z) (clientId : string) (rl : RateLimiter.t) :
  NoDup (windowMs <$> RateLimiter.rules rl) →
  ((∀ rule, rule ∈ RateLimiter.rules rl →
      RateLimiter.storage rl !! RateLimiter.key clientId rule = None) →
   (RateLimiter.isAllowed now_cleanup now clientId rl).1
   = forallb (λ rule, 1 <=? maxRequests rule) (RateLimiter.rules rl))
  ∧ (RateLimiter.isAllowed now_cleanup now clientId
       (RateLimiter.reset clientId rl)).1
    = forallb (λ rule, 1 <=? maxRequests rule) (RateLimiter.rules rl).
Proof.
  intros Hnd.
  assert (Hfresh : ∀ rl0, RateLimiter.rules rl0 = RateLimiter.rules rl →
    (∀ rule, rule ∈ RateLimiter.rules rl →
       RateLimiter.storage rl0 !! RateLimiter.key clientId rule = None) →
    (RateLimiter.isAllowed now_cleanup now clientId rl0).1
    = forallb (λ rule, 1 <=? maxRequests rule) (RateLimiter.rules rl)).
  { intros rl0 Hrules Habs. unfold RateLimiter.isAllowed. simpl.
    rewrite Hrules, visit_loop_fresh; [done|done|].
    intros rule Hin. by apply cleanup_lookup_None, Habs. }
  split.
  - by apply Hfresh.
  - apply Hfresh; [done|]. intros rule Hin.
    unfold RateLimiter.reset. simpl. rewrite reset_lookup.
    case_decide as H; [done|]. destruct H. apply Exists_exists.
    by exists rule.
Qed.

Lemma X9_witness :
  (RateLimiter.isAllowed 5 6 "10.0.0.1"
     (RateLimiter.reset "10.0.0.1"
        {| RateLimiter.storage :=
             {[ RateLimiter.key "10.0.0.1" (mkRule 1000 2) := mkInfo 7 5000 ]};
           RateLimiter.rules := [mkRule 1000 2; mkRule 60000 0] |})).1
  = forallb (λ rule, 1 <=? maxRequests rule) [mkRule 1000 2; mkRule 60000 0].
Proof.
  refine (proj2 (X9_first_request 5 6 "10.0.0.1" _ _)).
  simpl. by apply (bool_decide_unpack _).
Defined.

Lemma isAllowed_one_rule_in_window now_cleanup now clientId rl rule k R :
  RateLimiter.rules rl = [rule] →
  RateLimiter.storage rl !! RateLimiter.key clientId rule = Some (mkInfo k R) →
  now_cleanup <= R → now <= R →
  let r := RateLimiter.isAllowed now_cleanup now clientId rl in
  r.1 = (k + 1 <=? maxRequests rule)
  ∧ RateLimiter.rules r.2 = [rule]
  ∧ RateLimiter.storage r.2 !! RateLimiter.key clientId rule
    = Some (mkInfo (k + 1) R).
Proof.
  intros Hrules Hrow Hc Hn. cbv zeta. unfold RateLimiter.isAllowed.
  rewrite Hrules. unfold RateLimiter.visit. simpl.
  rewrite cleanup_lookup, Hrow. simpl.
  rewrite decide_False by lia. rewrite lookup_insert_eq.
  unfold RateLimiter.bump. simpl.
  destruct (Z.gtb_spec now R); [lia|]. simpl. split_and!; [|done..].
  destruct (Z.gtb_spec (k + 1) (maxRequests rule));
    destruct (Z.leb_spec (k + 1) (maxRequests rule)); done || lia.
Qed.

Lemma isAllowed_one_rule_first now_cleanup now clientId rl rule :
  RateLimiter.rules rl = [rule] →
  RateLimiter.storage rl !! RateLimiter.key clientId rule = None →
  let r := RateLimiter.isAllowed now_cleanup now clientId rl in
  r.1 = (1 <=? maxRequests rule)
  ∧ RateLimiter.rules r.2 = [rule]
  ∧ RateLimiter.storage r.2 !! RateLimiter.key clientId rule
    = Some (mkInfo 1 (now + windowMs rule)).
Proof.
  intros Hrules Hrow. cbv zeta. unfold RateLimiter.isAllowed.
  rewrite Hrules. unfold RateLimiter.visit. simpl.
  rewrite cleanup_lookup_None by done. rewrite lookup_insert_eq.
  rewrite bump_spec_roll. simpl. split_and!; [|done..].
  destruct (Z.gtb_spec 1 (maxRequests rule));
    destruct (Z.leb_spec 1 (maxRequests rule)); done || lia.
Qed.

Lemma isAllowed_seq_in_window clientId rule R calls : ∀ rl k,
  RateLimiter.rules rl = [rule] →
  RateLimiter.storage rl !! RateLimiter.key clientId rule = Some (mkInfo k R) →
  Forall (λ call : Z * Z, call.1 <= R ∧ call.2 <= R) calls →
  (isAllowed_seq clientId calls rl).1
  = (λ i, k + Z.of_nat i <=? maxRequests rule) <$> seq 1 (length calls).
Proof.
  induction calls as [|[c n] calls IH]; intros rl k Hrules Hrow Hin; [done|].
  apply Forall_cons in Hin as [[Hc Hn] Hin]. simpl in Hc, Hn.
  cbn [isAllowed_seq fst snd length].
  destruct (isAllowed_one_rule_in_window c n clientId rl rule k R)
    as (-> & Hrules' & Hrow'); [done..|].
  rewrite (IH _ (k + 1)) by done.
  cbn [seq fmap list_fmap]. change (Z.of_nat 1) with 1. f_equal.
  rewrite <- (fmap_S_seq 1), <- list_fmap_compose. apply list_fmap_ext.
  intros i x _. simpl. f_equal. lia.
Qed.

(** X10.  The quota of a limiter with one rule.  Of the calls of a client
    whose clock reads stay within one window, the first [maxRequests] are
    allowed and every further one is refused: a refused call never regains
    quota before the window ends.  This holds from a counter that stands at
    [k] (then [maxRequests - k] more calls pass), and from a client without a
    counter, whose first call opens the window [now + windowMs]. *)
Theorem X10_quota_within_a_window
    (clientId : string) (rule : RateLimitRule) (rl : RateLimiter.t) :
  RateLimiter.rules rl = [rule] →
  (∀ k R calls,
     RateLimiter.storage rl !! RateLimiter.key clientId rule
     = Some (mkInfo k R) →
     Forall (λ call : Z * Z, call.1 <= R ∧ call.2 <= R) calls →
     (isAllowed_seq clientId calls rl).1
     = (λ i, k + Z.of_nat i <=? maxRequests rule) <$> seq 1 (length calls))
  ∧ (∀ c1 n1 calls,
       RateLimiter.storage rl !! RateLimiter.key clientId rule = None →
       Forall (λ call : Z * Z, call.1 <= n1 + windowMs rule
                               ∧ call.2 <= n1 + windowMs rule) calls →
       (isAllowed_seq clientId ((c1, n1) :: calls) rl).1
       = (λ i, Z.of_nat i <=? maxRequests rule) <$> seq 1 (S (length calls))).
Proof.
  intros Hrules. split.
  - intros k R calls Hrow Hin. by apply (isAllowed_seq_in_window _ _ R).
  - intros c1 n1 calls Hrow Hin. cbn [isAllowed_seq fst snd].
    destruct (isAllowed_one_rule_first c1 n1 clientId rl rule)
      as (-> & Hrules' & Hrow'); [done..|].
    rewrite (isAllowed_seq_in_window clientId rule (n1 + windowMs rule)
               calls _ 1) by done.
    cbn [seq fmap list_fmap]. change (Z.of_nat 1) with 1. f_equal.
    rewrite <- (fmap_S_seq 1), <- list_fmap_compose. apply list_fmap_ext.
    intros i x _. simpl. f_equal. lia.
Qed.

(** Five calls within a second against a limit of 3 per second. *)
Lemma X10_witness :
  (isAllowed_seq "10.0.0.1"
     [(0, 0); (10, 10); (20, 21); (500, 500); (1000, 1000)]
     (RateLimiter.new defaultConfig [mkRule 1000 3])).1
  = (λ i, Z.of_nat i <=? 3) <$> seq 1 5.
Proof.
  refine (proj2 (X10_quota_within_a_window "10.0.0.1" (mkRule 1000 3)
                   (RateLimiter.new defaultConfig [mkRule 1000 3]) _)
            0 0 [(10, 10); (20, 21); (500, 500); (1000, 1000)] _ _).
  - reflexivity.
  - apply lookup_empty.
  - repeat constructor; simpl; lia.
Defined.

(** ** The hook of the rate limiter *)

Lemma getClientIdentifier_unidentified req :
  unidentified req → getClientIdentifier req = inr "unknown".
Proof.
  intros [Hip (remoteAddress & Hconn & Haddr)]. unfold getClientIdentifier.
  by rewrite Hip, Hconn, Haddr.
Qed.

Lemma RateLimiter_middleware_seq_outcomes clientId calls : ∀ rl,
  Forall (λ call : Z * Z * Request,
            getClientIdentifier call.2 = inr clientId) calls →
  (RateLimiter_middleware_seq calls rl).1
  = (λ allowed : bool,
       if allowed then Next
       else Respond 429 (mkSecurityError "Rate limit exceeded" 429))
    <$> (isAllowed_seq clientId (fst <$> calls) rl).1
  ∧ (RateLimiter_middleware_seq calls rl).2
    = (isAllowed_seq clientId (fst <$> calls) rl).2.
Proof.
  induction calls as [|[[c n] req] calls IH]; intros rl Hid; [done|].
  apply Forall_cons in Hid as [Hreq Hid]. simpl in Hreq.
  cbn [RateLimiter_middleware_seq isAllowed_seq fmap list_fmap fst snd].
  unfold RateLimiter_middleware at 1 3. rewrite Hreq.
  destruct (RateLimiter.isAllowed c n clientId rl) as [allowed rl'] eqn:Hr.
  cbn [fst snd].
  assert (Hstate : (if allowed
                    then (Next, @nil LogCall, rl')
                    else (Respond 429 (mkSecurityError "Rate limit exceeded" 429),
                          [mkLogCall "Rate limit exceeded"
                             [("clientId", clientId); ("path", req_path req)]],
                          rl')).2 = rl') by by destruct allowed.
  unfold RateLimiter_middleware. rewrite Hreq, Hr. cbn [fst snd].
  rewrite Hstate.
  destruct (IH rl' Hid) as [-> ->]. split; [|done].
  by destruct allowed.
Qed.

(** X11.  Clients without an address share one quota, and a request
    without a connection is not counted at all.  Through the hook of a
    limiter with one rule, of the requests that carry neither [req.ip] nor a
    [remoteAddress] (all counted as the client "unknown") and that fall
    within the window opened by the first of them, the first [maxRequests]
    reach [next()] and each further one is answered 429, whoever sent it.  A
    request without [req.ip] on which [req.connection] is [undefined] makes
    the hook throw, and the limiter is left as it was. *)
Theorem X11_unidentified_clients_share_the_quota
    (rule : RateLimitRule) (rl : RateLimiter.t) :
  RateLimiter.rules rl = [rule] →
  (∀ c1 n1 req1 calls,
     RateLimiter.storage rl !! RateLimiter.key "unknown" rule = None →
     Forall (λ call : Z * Z * Request, unidentified call.2)
            ((c1, n1, req1) :: calls) →
     Forall (λ call : Z * Z * Request,
               call.1.1 <= n1 + windowMs rule
               ∧ call.1.2 <= n1 + windowMs rule) calls →
     (RateLimiter_middleware_seq ((c1, n1, req1) :: calls) rl).1
     = (λ i, if Z.of_nat i <=? maxRequests rule then Next
             else Respond 429 (mkSecurityError "Rate limit exceeded" 429))
       <$> seq 1 (S (length calls)))
  ∧ (∀ now_cleanup now req,
       truthy (req_ip req) = false → req_connection req = None →
       ∃ message,
         RateLimiter_middleware now_cleanup now req rl
         = (Throw (TypeError message), [], rl)).
Proof.
  intros Hrules. split.
  - intros c1 n1 req1 calls Hrow Hunid Hin.
    destruct (RateLimiter_middleware_seq_outcomes "unknown"
                ((c1, n1, req1) :: calls) rl) as [-> _].
    { eapply Forall_impl; [exact Hunid|].
      intros call. apply getClientIdentifier_unidentified. }
    cbn [fmap list_fmap fst isAllowed_seq snd].
    destruct (isAllowed_one_rule_first c1 n1 "unknown" rl rule)
      as (-> & Hrules' & Hrow'); [done..|].
    rewrite (isAllowed_seq_in_window "unknown" rule (n1 + windowMs rule)
               (fst <$> calls) _ 1); [|done|done|].
    + rewrite length_fmap. cbn [seq fmap list_fmap].
      change (Z.of_nat 1) with 1. f_equal.
      rewrite <- (fmap_S_seq 1), <- !list_fmap_compose. apply list_fmap_ext.
      intros i x _. simpl.
      by replace (1 + Z.of_nat x) with (Z.of_nat (S x)) by lia.
    + apply Forall_fmap. eapply Forall_impl; [exact Hin|]. by intros [[??]?].
  - intros now_cleanup now req Hip Hconn. eexists.
    unfold RateLimiter_middleware, getClientIdentifier.
    by rewrite Hip, Hconn.
Qed.

(** Three requests without an address against a limit of 2 per second. *)
Lemma X11_witness :
  let q1 := mkRequest None (Some None) "/login" None in
  let q2 := mkRequest (Some "") (Some (Some "")) "/profile" None in
  (RateLimiter_middleware_seq [(0, 0, q1); (5, 5, q2); (9, 9, q1)]
     (RateLimiter.new defaultConfig [mkRule 1000 2])).1
  = (λ i, if Z.of_nat i <=? 2 then Next
          else Respond 429 (mkSecurityError "Rate limit exceeded" 429))
    <$> seq 1 3.
Proof.
  cbv zeta.
  refine (proj1 (X11_unidentified_clients_share_the_quota (mkRule 1000 2)
                   (RateLimiter.new defaultConfig [mkRule 1000 2]) _)
            0 0 _ [(5, 5, _); (9, 9, _)] _ _ _).
  - reflexivity.
  - apply lookup_empty.
  - repeat constructor; eexists; split; reflexivity.
  - repeat constructor; simpl; lia.
Defined.

(** ** The brute-force guard: invariants, lock, independence *)

Section guard.
Import BruteForceProtection.

Lemma clear_failedAttempts now bf k :
  failedAttempts (clearExpiredLockouts now bf) !! k
  = if purged now bf k then None else failedAttempts bf !! k.
Proof.
  unfold clearExpiredLockouts. simpl. rewrite map_lookup_filter.
  destruct (failedAttempts bf !! k) as [c|]; simpl.
  - destruct (purged now bf k) eqn:Hp.
    + by rewrite option_guard_False by (simpl; congruence).
    + by rewrite option_guard_True.
  - by destruct (purged now bf k).
Qed.

Lemma clear_lastAttemptTime now bf k :
  lastAttemptTime (clearExpiredLockouts now bf) !! k
  = if purged now bf k then None else lastAttemptTime bf !! k.
Proof.
  unfold clearExpiredLockouts. simpl. rewrite map_lookup_filter.
  destruct (lastAttemptTime bf !! k) as [c|]; simpl.
  - destruct (purged now bf k) eqn:Hp.
    + by rewrite option_guard_False by (simpl; congruence).
    + by rewrite option_guard_True.
  - by destruct (purged now bf k).
Qed.

Lemma purged_Some now bf k :
  purged now bf k = true →
  ∃ c tl, failedAttempts bf !! k = Some c ∧ lastAttemptTime bf !! k = Some tl
          ∧ tl ≠ 0 ∧ c >= maxAttempts bf ∧ now - tl > lockoutDuration bf.
Proof.
  unfold purged, lockout_expired.
  destruct (failedAttempts bf !! k) as [c|]; [|done].
  destruct (lastAttemptTime bf !! k) as [tl|]; [|done].
  intros H. exists c, tl.
  destruct (Z.eqb_spec tl 0); [done|].
  destruct (Z.geb_spec c (maxAttempts bf)); [|done].
  destruct (Z.gtb_spec (now - tl) (lockoutDuration bf)); [|done].
  split_and!; done || lia.
Qed.

Lemma purged_ext now bf1 bf2 k :
  failedAttempts bf1 !! k = failedAttempts bf2 !! k →
  lastAttemptTime bf1 !! k = lastAttemptTime bf2 !! k →
  maxAttempts bf1 = maxAttempts bf2 →
  lockoutDuration bf1 = lockoutDuration bf2 →
  purged now bf1 k = purged now bf2 k.
Proof.
  intros Hf Hl Hm Hd. unfold purged, lockout_expired.
  by rewrite Hf, Hl, Hm, Hd.
Qed.

Lemma t_eq (bf1 bf2 : t) :
  failedAttempts bf1 = failedAttempts bf2 →
  lastAttemptTime bf1 = lastAttemptTime bf2 →
  lockoutDuration bf1 = lockoutDuration bf2 →
  maxAttempts bf1 = maxAttempts bf2 → bf1 = bf2.
Proof. destruct bf1, bf2. simpl. by intros -> -> -> ->. Qed.

(** A later sweep of the guard absorbs an earlier one. *)
Lemma clear_clear earlier now bf :
  earlier <= now →
  clearExpiredLockouts now (clearExpiredLockouts earlier bf)
  = clearExpiredLockouts now bf.
Proof.
  intros Hle.
  assert (Hp : ∀ k, purged earlier bf k = true → purged now bf k = true).
  { intros k (c & tl & Hc & Ht & Hz & Hge & Hgt)%purged_Some.
    apply (purged_true _ _ _ c tl); try done. lia. }
  assert (Hq : ∀ k, purged earlier bf k = false →
            purged now (clearExpiredLockouts earlier bf) k = purged now bf k).
  { intros k Hk. apply purged_ext; try done.
    - by rewrite clear_failedAttempts, Hk.
    - by rewrite clear_lastAttemptTime, Hk. }
  apply t_eq; try done.
  - apply map_eq. intros k. rewrite !clear_failedAttempts.
    destruct (purged earlier bf k) eqn:Hk.
    + rewrite (Hp k Hk). by destruct (purged now _ k).
    + by rewrite (Hq k Hk).
  - apply map_eq. intros k. rewrite !clear_lastAttemptTime.
    destruct (purged earlier bf k) eqn:Hk.
    + rewrite (Hp k Hk). by destruct (purged now _ k).
    + by rewrite (Hq k Hk).
Qed.

End guard.

(** X12.  What every state of a guard satisfies, whatever failures, resets
    and checks were made, for whatever identifiers and at whatever clock
    values: the two parameters are those of the constructor, a stored count
    is at least 1, and an identifier has a count exactly when it has a time
    stamp. *)
Theorem X12_guard_invariants
    (maxAttempts lockoutDuration : Z) (calls : list (Z * GuardOp)) :
  let bf :=
    run_guard calls (BruteForceProtection.new maxAttempts lockoutDuration) in
  BruteForceProtection.maxAttempts bf = maxAttempts
  ∧ BruteForceProtection.lockoutDuration bf = lockoutDuration
  ∧ counts_positive bf
  ∧ ∀ identifier,
      is_Some (BruteForceProtection.failedAttempts bf !! identifier)
      ↔ is_Some (BruteForceProtection.lastAttemptTime bf !! identifier).
Proof.
  cbv zeta. unfold run_guard.
  set (inv := λ bf,
    BruteForceProtection.maxAttempts bf = maxAttempts
    ∧ BruteForceProtection.lockoutDuration bf = lockoutDuration
    ∧ counts_positive bf
    ∧ ∀ identifier,
        is_Some (BruteForceProtection.failedAttempts bf !! identifier)
        ↔ is_Some (BruteForceProtection.lastAttemptTime bf !! identifier)).
  assert (Hstep : ∀ bf call, inv bf → inv (run_guard_op bf call)).
  { intros bf [now [x|x|x]] (Hm & Hd & Hpos & Hdom); unfold run_guard_op; simpl.
    - split_and!; try done.
      + by apply counts_positive_recordFailedAttempt.
      + intros k. unfold BruteForceProtection.recordFailedAttempt. simpl.
        destruct (decide (x = k)) as [->|Hne].
        * by rewrite !lookup_insert_eq.
        * rewrite !lookup_insert_ne by done. apply Hdom.
    - split_and!; try done.
      + by apply counts_positive_resetAttempts.
      + intros k. unfold BruteForceProtection.resetAttempts. simpl.
        destruct (decide (x = k)) as [->|Hne].
        * rewrite !lookup_delete_eq. split; by intros [? ?].
        * rewrite !lookup_delete_ne by done. apply Hdom.
    - split_and!; try done.
      + by apply (counts_positive_isAllowed now x).
      + intros k. rewrite clear_failedAttempts, clear_lastAttemptTime.
        destruct (BruteForceProtection.purged now bf k); [|apply Hdom].
        split; by intros [? ?]. }
  assert (Hrun : ∀ bf, inv bf → inv (foldl run_guard_op bf calls)).
  { induction calls as [|call calls IH]; intros bf Hbf; [done|].
    simpl. by apply IH, Hstep. }
  apply Hrun. split_and!; [done|done|apply counts_positive_new|].
  intros k. simpl. by rewrite !lookup_empty.
Qed.

(** X13.  When an identifier is locked.  For an identifier with a count [c]
    and a time stamp [tl], under a limit of at least 1: [isAllowed] returns
    false, and the hook answers 403 without calling [next()], exactly when
    [c] has reached the limit and the lockout has not run out
    ([now - tl <= lockoutDuration]), or the stamp is 0; in every other case
    [isAllowed] returns true and the hook calls [next()].  An identifier
    without a count is always allowed. *)
Theorem X13_lock_characterised
    (now : Z) (x : string) (req : Request) (bf : BruteForceProtection.t) :
  1 <= BruteForceProtection.maxAttempts bf →
  getClientIdentifier req = inr x →
  (∀ c tl,
     BruteForceProtection.failedAttempts bf !! x = Some c →
     BruteForceProtection.lastAttemptTime bf !! x = Some tl →
     let locked :=
       bool_decide (c >= BruteForceProtection.maxAttempts bf
                    ∧ (tl = 0 ∨ now - tl
                                 <= BruteForceProtection.lockoutDuration bf)) in
     (BruteForceProtection.isAllowed now x bf).1 = negb locked
     ∧ (BruteForceProtection_middleware now req bf).1.1
       = (if locked
          then Respond 403 (mkSecurityError "Account temporarily locked" 403)
          else Next))
  ∧ (BruteForceProtection.failedAttempts bf !! x = None →
     (BruteForceProtection.isAllowed now x bf).1 = true
     ∧ (BruteForceProtection_middleware now req bf).1.1 = Next).
Proof.
  intros Hm Hreq.
  assert (Hhook : (BruteForceProtection_middleware now req bf).1.1
            = if (BruteForceProtection.isAllowed now x bf).1 then Next
              else Respond 403 (mkSecurityError "Account temporarily locked" 403)).
  { unfold BruteForceProtection_middleware. rewrite Hreq.
    by destruct (BruteForceProtection.isAllowed now x bf).1. }
  split.
  - intros c tl Hc Ht. cbv zeta.
    assert (Hres : (BruteForceProtection.isAllowed now x bf).1
              = negb (bool_decide
                  (c >= BruteForceProtection.maxAttempts bf
                   ∧ (tl = 0 ∨ now - tl
                                <= BruteForceProtection.lockoutDuration bf)))).
    { rewrite isAllowed_result.
      unfold BruteForceProtection.purged, BruteForceProtection.lockout_expired.
      rewrite Hc, Ht. simpl.
      destruct (Z.eqb_spec tl 0) as [->|Hz]; simpl.
      - case_bool_decide as Hb.
        + apply Z.ltb_ge. lia.
        + apply Z.ltb_lt. lia.
      - destruct (Z.geb_spec c (BruteForceProtection.maxAttempts bf));
          simpl.
        + destruct (Z.gtb_spec (now - tl)
                      (BruteForceProtection.lockoutDuration bf)).
          * case_bool_decide as Hb; [lia|]. apply Z.ltb_lt. lia.
          * case_bool_decide as Hb; [|lia]. apply Z.ltb_ge. lia.
        + case_bool_decide as Hb; [lia|]. apply Z.ltb_lt. lia. }
    split; [done|]. rewrite Hhook, Hres. by case_bool_decide.
  - intros Hc.
    assert (Hres : (BruteForceProtection.isAllowed now x bf).1 = true).
    { rewrite isAllowed_result. unfold BruteForceProtection.purged.
      rewrite Hc. simpl. apply Z.ltb_lt. lia. }
    split; [done|]. by rewrite Hhook, Hres.
Qed.

(** Three failures at 5, 6 and 7 ms under a limit of 3 and a lockout of
    1000 ms: the request of 1007 is answered 403. *)
Lemma X13_witness :
  let req := mkRequest (Some "127.0.0.1") None "/login" None in
  let bf := record_failures "127.0.0.1" [5; 6; 7]
              (BruteForceProtection.new 3 1000) in
  (BruteForceProtection.isAllowed 1007 "127.0.0.1" bf).1 = false
  ∧ (BruteForceProtection_middleware 1007 req bf).1.1
    = Respond 403 (mkSecurityError "Account temporarily locked" 403).
Proof.
  cbv zeta.
  refine (proj1 (X13_lock_characterised 1007 "127.0.0.1" _ _ _ _) 3 7 _ _);
    by vm_compute.
Defined.



(** X15.  Identifiers do not interfere, and checks are absorbed.  A failure
    recorded or a reset made for another identifier does not change what
    [isAllowed] answers for [x]; and a check made earlier, for any
    identifier, leaves a later check as it is, answer and state, on a clock
    that does not go back. *)
Theorem X15_guard_identifiers_are_independent
    (bf : BruteForceProtection.t) (x y : string) (earlier now : Z) :
  (y ≠ x →
   (BruteForceProtection.isAllowed now x
      (BruteForceProtection.recordFailedAttempt earlier y bf)).1
   = (BruteForceProtection.isAllowed now x bf).1
   ∧ (BruteForceProtection.isAllowed now x
        (BruteForceProtection.resetAttempts y bf)).1
     = (BruteForceProtection.isAllowed now x bf).1)
  ∧ (earlier <= now →
     BruteForceProtection.isAllowed now x
       (BruteForceProtection.isAllowed earlier y bf).2
     = BruteForceProtection.isAllowed now x bf).
Proof.
  split.
  - intros Hne. split.
    + rewrite !isAllowed_result.
      rewrite (purged_ext now _ bf x); try done.
      * unfold BruteForceProtection.recordFailedAttempt. simpl.
        by rewrite lookup_insert_ne.
      * unfold BruteForceProtection.recordFailedAttempt. simpl.
        by rewrite lookup_insert_ne.
      * unfold BruteForceProtection.recordFailedAttempt. simpl.
        by rewrite lookup_insert_ne.
    + rewrite !isAllowed_result.
      rewrite (purged_ext now _ bf x); try done.
      * unfold BruteForceProtection.resetAttempts. simpl.
        by rewrite lookup_delete_ne.
      * unfold BruteForceProtection.resetAttempts. simpl.
        by rewrite lookup_delete_ne.
      * unfold BruteForceProtection.resetAttempts. simpl.
        by rewrite lookup_delete_ne.
  - intros Hle. unfold BruteForceProtection.isAllowed. cbn [snd].
    rewrite (clear_clear earlier now bf Hle). reflexivity.
Qed.

(** ** The configuration manager *)

(** The defaults, as the session and rate-limiting code reads them. *)
Lemma view_defaultConfig env :
  ConfigManager.view (ConfigManager.defaultConfig env) = Some defaultConfig.
Proof. reflexivity. Qed.

Section config_manager.
Import ConfigManager.

Lemma falsy_false s : falsy s = false → ∃ v, s = Some v ∧ v ≠ "".
Proof.
  destruct s as [v|]; simpl; [|done].
  intros H%bool_decide_eq_false. by exists v.
Qed.

Lemma validateConfig_None env config :
  validateConfig env config = None ↔ validated env config.
Proof.
  unfold validateConfig, validated. split.
  - destruct (bool_decide (NODE_ENV env ≠ Some "test")) eqn:Henv; simpl.
    + destruct (falsy (jwtSecret config)) eqn:Hjwt; [done|]. simpl.
      destruct (bool_decide (jwtSecret config = Some "your-secret-key"))
        eqn:Hjwt'; [done|]. apply bool_decide_eq_false in Hjwt'.
      destruct (falsy (encryptionSecret config)) eqn:Henc; [done|]. simpl.
      destruct (bool_decide
                  (encryptionSecret config = Some "your-encryption-secret-key"))
        eqn:Henc'; [done|]. apply bool_decide_eq_false in Henc'.
      destruct (lt (bcryptSaltRounds config) 10); [done|].
      destruct (passwordPolicy config) as [policy|]; [|done].
      destruct (lt (minLength policy) 8) eqn:Hmin; [done|].
      intros _. split; [done|]. split; [by exists policy|]. intros _.
      apply falsy_false in Hjwt as (jwt & Hjwt & ?).
      apply falsy_false in Henc as (enc & Henc & ?).
      exists jwt, enc. rewrite Hjwt, Henc in *.
      split_and!; try done; congruence.
    + apply bool_decide_eq_false in Henv.
      destruct (lt (bcryptSaltRounds config) 10); [done|].
      destruct (passwordPolicy config) as [policy|]; [|done].
      destruct (lt (minLength policy) 8) eqn:Hmin; [done|].
      intros _. split; [done|]. split; [by exists policy|]. done.
  - intros (Hb & (policy & Hp & Hmin) & Hsecrets).
    rewrite Hb, Hp, Hmin.
    destruct (bool_decide (NODE_ENV env ≠ Some "test")) eqn:Henv; simpl;
      [|done].
    apply bool_decide_eq_true in Henv.
    destruct (Hsecrets Henv) as (jwt & enc & -> & ? & ? & -> & ? & ?).
    simpl. rewrite !bool_decide_eq_false_2 by congruence. done.
Qed.

Lemma updateConfig_cases env newConfig config :
  (∃ error,
     updateConfig env newConfig config
     = (Some (Error ("Configuration update failed: " +:+ message_of error)),
        config)
     ∧ validateConfig env (merge config newConfig) = Some error)
  ∨ (updateConfig env newConfig config = (None, merge config newConfig)
     ∧ validateConfig env (merge config newConfig) = None).
Proof.
  unfold updateConfig.
  destruct (validateConfig env (merge config newConfig)) as [error|].
  - left. by exists error.
  - by right.
Qed.

Lemma attempt_bounded config call :
  bounded config → bounded (attempt config call).
Proof.
  intros Hc. destruct call as [env [newConfig|]]; unfold attempt, loadFromEnv;
    simpl.
  - destruct (updateConfig_cases env newConfig config)
      as [(m & -> & _)|[-> Hv]]; [done|].
    apply validateConfig_None in Hv as (? & ? & _). by split.
  - match goal with |- context [updateConfig env ?p config] =>
      destruct (updateConfig_cases env p config) as [(m & -> & _)|[-> Hv]]
    end; [done|].
    apply validateConfig_None in Hv as (? & ? & _). by split.
Qed.

Lemma attempts_bounded attempts : ∀ config,
  bounded config → bounded (foldl attempt config attempts).
Proof.
  induction attempts as [|call attempts IH]; intros config Hc; [done|].
  simpl. by apply IH, attempt_bounded.
Qed.

End config_manager.

(** X16.  [updateConfig] is all or nothing.  A rejected update throws an
    error whose message starts with "Configuration update failed: " and
    leaves the configuration as it was; an update is accepted exactly when
    [validateConfig] lets the shallow merge through, and then the merge is
    installed, a property given as [undefined] included.  What
    [validateConfig] lets through has no number below 10 as
    [bcryptSaltRounds], a [passwordPolicy] with no number below 8 as
    [minLength] and, unless [NODE_ENV] is "test", secrets that are neither
    falsy nor the placeholders.  The two comparisons are JavaScript's: a
    [bcryptSaltRounds] that is [NaN] or [undefined] is accepted, a
    [passwordPolicy] that is [undefined] is rejected.  So, starting from the
    defaults, after any sequence of [updateConfig] and [loadFromEnv] calls,
    accepted or not, [bcryptSaltRounds] is never a number below 10 and
    [passwordPolicy.minLength] never a number below 8. *)
Theorem X16_updateConfig_all_or_nothing :
  (∀ env newConfig config,
     let r := ConfigManager.updateConfig env newConfig config in
     (r.1 = None
      ↔ validated env (ConfigManager.merge config newConfig))
     ∧ match r.1 with
       | Some e =>
           r.2 = config
           ∧ ∃ message,
               e = Error ("Configuration update failed: " +:+ message)
       | None =>
           r.2 = ConfigManager.merge config newConfig ∧ validated env r.2
       end)
  ∧ (∀ env config v,
       validated env config →
       v = None ∨ v = Some ConfigManager.NaN →
       ConfigManager.updateConfig env
         (ConfigManager.only_bcryptSaltRounds v) config
       = (None,
          ConfigManager.merge config (ConfigManager.only_bcryptSaltRounds v))
       ∧ ConfigManager.bcryptSaltRounds
           (ConfigManager.merge config
              (ConfigManager.only_bcryptSaltRounds v)) = v)
  ∧ (∀ env config newConfig,
       ConfigManager.p_passwordPolicy newConfig = Some None →
       (ConfigManager.updateConfig env newConfig config).1 ≠ None
       ∧ (ConfigManager.updateConfig env newConfig config).2 = config)
  ∧ (∀ env0 attempts,
       let config :=
         foldl ConfigManager.attempt (ConfigManager.defaultConfig env0)
               attempts in
       (∀ z, ConfigManager.bcryptSaltRounds config
             = Some (ConfigManager.Num z) → 10 <= z)
       ∧ ∃ policy,
           ConfigManager.passwordPolicy config = Some policy
           ∧ ∀ z, ConfigManager.minLength policy
                  = Some (ConfigManager.Num z) → 8 <= z).
Proof.
  split_and!.
  - intros env newConfig config. cbv zeta.
    destruct (updateConfig_cases env newConfig config)
      as [(m & -> & Hv)|[-> Hv]]; simpl.
    + split.
      * split; [done|]. intros Hok%validateConfig_None. congruence.
      * split; [done|]. by exists (ConfigManager.message_of m).
    + apply validateConfig_None in Hv. done.
  - intros env config v (Hb & Hp & Hs) Hv. split.
    + destruct (updateConfig_cases env
                  (ConfigManager.only_bcryptSaltRounds v) config)
        as [(m & _ & Hm)|[-> _]]; [|done].
      assert (Hok : validated env
                (ConfigManager.merge config
                   (ConfigManager.only_bcryptSaltRounds v))).
      { split_and!; [|done..]. simpl. by destruct Hv as [->| ->]. }
      apply validateConfig_None in Hok. congruence.
    + done.
  - intros env config newConfig Hgiven.
    destruct (updateConfig_cases env newConfig config)
      as [(m & -> & _)|[_ Hv]]; [done|].
    apply validateConfig_None in Hv as (_ & (policy & Hp & _) & _).
    simpl in Hp. rewrite Hgiven in Hp. done.
  - intros env0 attempts. cbv zeta.
    destruct (attempts_bounded attempts (ConfigManager.defaultConfig env0))
      as (Hb & policy & Hp & Hmin).
    { split; [done|]. eexists. split; [reflexivity|]. done. }
    split.
    + intros z Hz. rewrite Hz in Hb. simpl in Hb.
      apply bool_decide_eq_false in Hb. lia.
    + exists policy. split; [done|]. intros z Hz. rewrite Hz in Hmin.
      simpl in Hmin. apply bool_decide_eq_false in Hmin. lia.
Qed.

(** X17.  [loadFromEnv] can change the two secrets and nothing else.  A
    variable that is not set, or set to the empty string, keeps the secret
    that is configured.  Outside the test environment the call fails, and
    changes nothing, when the JWT secret it arrives at is empty (or
    [undefined]): on the defaults without [JWT_SECRET] it always throws. *)
Theorem X17_loadFromEnv_touches_the_secrets_only
    (env : ConfigManager.Env) (config : ConfigManager.Config) :
  let r := ConfigManager.loadFromEnv env config in
  (r.2 = config
   ∨ r.2 = ConfigManager.merge config
             (ConfigManager.mkPartial
                (Some (ConfigManager.or_else (ConfigManager.JWT_SECRET env)
                         (ConfigManager.jwtSecret config)))
                None None None None None None None None None
                (Some (ConfigManager.or_else
                         (ConfigManager.ENCRYPTION_SECRET env)
                         (ConfigManager.encryptionSecret config)))
                None None))
  ∧ ConfigManager.merge r.2
      (ConfigManager.mkPartial (Some (ConfigManager.jwtSecret config))
         None None None None None None None None None
         (Some (ConfigManager.encryptionSecret config)) None None)
    = config
  ∧ (ConfigManager.falsy (ConfigManager.JWT_SECRET env) = true →
     r.1 = None → ConfigManager.jwtSecret r.2 = ConfigManager.jwtSecret config)
  ∧ (ConfigManager.falsy (ConfigManager.ENCRYPTION_SECRET env) = true →
     r.1 = None →
     ConfigManager.encryptionSecret r.2 = ConfigManager.encryptionSecret config)
  ∧ (ConfigManager.NODE_ENV env ≠ Some "test" →
     ConfigManager.falsy
       (ConfigManager.or_else (ConfigManager.JWT_SECRET env)
          (ConfigManager.jwtSecret config)) = true →
     r = (Some (Error
            "Configuration update failed: JWT secret must be set to a secure value"),
          config))
  ∧ (ConfigManager.NODE_ENV env ≠ Some "test" →
     ConfigManager.JWT_SECRET env = None →
     ConfigManager.loadFromEnv env (ConfigManager.defaultConfig env)
     = (Some (Error
          "Configuration update failed: JWT secret must be set to a secure value"),
        ConfigManager.defaultConfig env)).
Proof.
  assert (Hthrows : ∀ config,
    ConfigManager.NODE_ENV env ≠ Some "test" →
    ConfigManager.falsy
      (ConfigManager.or_else (ConfigManager.JWT_SECRET env)
         (ConfigManager.jwtSecret config)) = true →
    ConfigManager.loadFromEnv env config
    = (Some (Error
         "Configuration update failed: JWT secret must be set to a secure value"),
       config)).
  { intros config' Henv Hempty.
    unfold ConfigManager.loadFromEnv, ConfigManager.updateConfig.
    match goal with |- context [ConfigManager.validateConfig env ?c] =>
      assert (Hv : ConfigManager.validateConfig env c
                   = Some (Error "JWT secret must be set to a secure value"))
    end.
    { unfold ConfigManager.validateConfig. simpl. rewrite Hempty.
      by rewrite (bool_decide_eq_true_2 _ Henv). }
    by rewrite Hv. }
  cbv zeta. unfold ConfigManager.loadFromEnv.
  match goal with |- context [ConfigManager.updateConfig env ?p config] =>
    set (newConfig := p)
  end.
  split_and!.
  - destruct (updateConfig_cases env newConfig config)
      as [(m & -> & _)|[-> _]]; [by left|by right].
  - destruct (updateConfig_cases env newConfig config)
      as [(m & -> & _)|[-> _]]; simpl; by destruct config.
  - intros Hunset.
    destruct (updateConfig_cases env newConfig config)
      as [(m & -> & _)|[-> _]]; simpl; [done|]. intros _.
    unfold ConfigManager.or_else. by rewrite Hunset.
  - intros Hunset.
    destruct (updateConfig_cases env newConfig config)
      as [(m & -> & _)|[-> _]]; simpl; [done|]. intros _.
    unfold ConfigManager.or_else. by rewrite Hunset.
  - apply Hthrows.
  - intros Henv Hunset. apply Hthrows; [done|].
    simpl. rewrite !Hunset. reflexivity.
Qed.

(** ** The authentication hook *)

(** X18.  How [authenticate] keeps the books of the guard, for a request
    of client [c].  A request that the limiter refuses is answered 429 and
    leaves the guard alone.  A request that passes the limiter: without
    credentials (no body, or an empty or missing user name or password) it
    is refused without being counted as a failure; with an unknown user or a
    password that does not verify it is answered 401 and exactly one failure
    is recorded for [c]; with credentials that verify and a token it calls
    [next()] and clears the failures of [c].  The limiter is charged in
    every case. *)
Theorem X18_authenticate_bookkeeping
    (ext : Collaborators) (now_cleanup now_limit now_fail : Z)
    (req : Request) (body : option Body) (c : string)
    (rl : RateLimiter.t) (bf : BruteForceProtection.t) :
  getClientIdentifier req = inr c →
  let lim := RateLimiter.isAllowed now_cleanup now_limit c rl in
  let r := authenticate ext now_cleanup now_limit now_fail req body rl bf in
  r.2.1 = lim.2
  ∧ (lim.1 = false →
     r.1.1 = AuthTooMany (mkSecurityError "Too many authentication attempts" 429)
     ∧ r.2.2 = bf)
  ∧ (lim.1 = true →
     (body = None → r.1.1 = AuthInternal ∧ r.2.2 = bf)
     ∧ (∀ b, body = Some b →
          truthy (body_username b) && truthy (body_password b) = false →
          r.1.1 = AuthRefused
                    (mkSecurityError "Username and password are required" 400)
          ∧ r.2.2 = bf)
     ∧ (∀ b username password, body = Some b →
          body_username b = Some username → username ≠ "" →
          body_password b = Some password → password ≠ "" →
          (findUser ext username = inr None
           ∨ (∃ user, findUser ext username = inr (Some user)
                ∧ verifyPassword ext password (user_password user)
                  = inr false) →
           r.1.1 = AuthRefused (mkSecurityError "Invalid credentials" 401)
           ∧ r.2.2 = BruteForceProtection.recordFailedAttempt now_fail c bf)
          ∧ (∀ user token,
               findUser ext username = inr (Some user) →
               verifyPassword ext password (user_password user) = inr true →
               generateToken ext user = inr token →
               r.1.1 = AuthNext user token
               ∧ r.2.2 = BruteForceProtection.resetAttempts c bf))).
Proof.
  intros Hreq. cbv zeta. unfold authenticate. rewrite Hreq.
  destruct (RateLimiter.isAllowed now_cleanup now_limit c rl) as [allowed rl'].
  cbn [fst snd]. destruct allowed; cbn [negb].
  - split_and!; [|done|intros _; split_and!].
    + destruct body as [b|]; [|done].
      destruct (negb (truthy (body_username b))
                || negb (truthy (body_password b))); [done|].
      destruct (findUser ext _) as [e|[user|]]; try done.
      destruct (verifyPassword ext _ _) as [e|[|]]; try done.
      by destruct (generateToken ext user).
    + by intros ->.
    + intros b -> Hcred.
      destruct (truthy (body_username b)), (truthy (body_password b));
        by simpl in *.
    + intros b username password -> Hu Hune Hp Hpne.
      assert (Htu : truthy (body_username b) = true).
      { rewrite Hu. simpl. by case_decide. }
      assert (Htp : truthy (body_password b) = true).
      { rewrite Hp. simpl. by case_decide. }
      rewrite Htu, Htp, Hu, Hp. simpl. split.
      * intros [->|(user & -> & ->)]; done.
      * by intros user token -> -> ->.
  - split_and!; done.
Qed.

Lemma X18_witness :
  let ext := mkCollaborators
               (λ name, if decide (name = "ada")
                        then inr (Some (mkUser "1" "ada" "hash" "admin"))
                        else inr None)
               (λ password hash, inr (bool_decide (password = "right")))
               (λ user, inr "token") in
  let req := mkRequest (Some "10.0.0.1") None "/login" None in
  let body := Some (mkBody (Some "ada") (Some "wrong")) in
  let rl := RateLimiter.new defaultConfig [] in
  let bf := BruteForceProtection.new 5 900000 in
  (authenticate ext 5 5 6 req body rl bf).1.1
  = AuthRefused (mkSecurityError "Invalid credentials" 401)
  ∧ (authenticate ext 5 5 6 req body rl bf).2.2
    = BruteForceProtection.recordFailedAttempt 6 "10.0.0.1" bf.
Proof.
  cbv zeta.
  set (ext := mkCollaborators _ _ _).
  destruct (X18_authenticate_bookkeeping ext 5 5 6
              (mkRequest (Some "10.0.0.1") None "/login" None)
              (Some (mkBody (Some "ada") (Some "wrong"))) "10.0.0.1"
              (RateLimiter.new defaultConfig [])
              (BruteForceProtection.new 5 900000) eq_refl)
    as (_ & _ & Hallowed).
  destruct (Hallowed ltac:(by vm_compute)) as (_ & _ & Hcred).
  apply (Hcred _ "ada" "wrong" eq_refl eq_refl ltac:(discriminate) eq_refl
           ltac:(discriminate)).
  right. eexists. split; reflexivity.
Defined.

(** X19.  [authenticate] does not enforce the lockout.  Neither its answer
    nor the limiter after it depends on the state of the guard, so a client
    that the guard holds locked and that sends credentials that verify is
    passed on to [next()], provided the rate limiter allows the request;
    after that its failures are cleared and [isAllowed] of the guard is true
    again, for a limit of at least 1. *)
Theorem X19_authenticate_ignores_the_lock
    (ext : Collaborators) (now_cleanup now_limit now_fail : Z)
    (req : Request) (body : option Body) (rl : RateLimiter.t) :
  (∀ bf1 bf2,
     (authenticate ext now_cleanup now_limit now_fail req body rl bf1).1.1
     = (authenticate ext now_cleanup now_limit now_fail req body rl bf2).1.1
     ∧ (authenticate ext now_cleanup now_limit now_fail req body rl bf1).2.1
       = (authenticate ext now_cleanup now_limit now_fail req body rl bf2).2.1)
  ∧ (∀ bf c username password user token later,
       getClientIdentifier req = inr c →
       (RateLimiter.isAllowed now_cleanup now_limit c rl).1 = true →
       body = Some (mkBody (Some username) (Some password)) →
       username ≠ "" → password ≠ "" →
       findUser ext username = inr (Some user) →
       verifyPassword ext password (user_password user) = inr true →
       generateToken ext user = inr token →
       1 <= BruteForceProtection.maxAttempts bf →
       (BruteForceProtection.isAllowed now_limit c bf).1 = false →
       let r := authenticate ext now_cleanup now_limit now_fail req body rl bf in
       r.1.1 = AuthNext user token
       ∧ (BruteForceProtection.isAllowed later c r.2.2).1 = true).
Proof.
  split.
  - intros bf1 bf2. unfold authenticate.
    destruct (getClientIdentifier req) as [e|c]; [done|].
    destruct (RateLimiter.isAllowed now_cleanup now_limit c rl)
      as [allowed rl'].
    cbn [fst snd]. destruct allowed; cbn [negb]; [|done].
    destruct body as [b|]; [|done].
    destruct (negb (truthy (body_username b))
              || negb (truthy (body_password b))); [done|].
    destruct (findUser ext _) as [e|[user|]]; try done.
    destruct (verifyPassword ext _ _) as [e|[|]]; try done.
    by destruct (generateToken ext user).
  - intros bf c username password user token later
      Hreq Hlim -> Hune Hpne Hfind Hverify Htoken Hm _. cbv zeta.
    unfold authenticate. rewrite Hreq.
    destruct (RateLimiter.isAllowed now_cleanup now_limit c rl)
      as [allowed rl'].
    simpl in Hlim. subst allowed.
    cbn [fst snd negb body_username body_password].
    assert (Htu : truthy (Some username) = true)
      by (simpl; by case_decide).
    assert (Htp : truthy (Some password) = true)
      by (simpl; by case_decide).
    rewrite Htu, Htp. cbn [negb orb].
    change (default "" (Some username)) with username.
    change (default "" (Some password)) with password.
    rewrite Hfind, Hverify, Htoken. cbn [fst snd]. split; [done|].
    rewrite isAllowed_result.
    assert (Hx : BruteForceProtection.failedAttempts
                   (BruteForceProtection.resetAttempts c bf) !! c = None)
      by apply lookup_delete_eq.
    unfold BruteForceProtection.purged. rewrite Hx. simpl.
    apply Z.ltb_lt. lia.
Qed.

(** A locked client with the right password. *)
Lemma X19_witness :
  let ext := mkCollaborators
               (λ name, inr (Some (mkUser "1" "ada" "hash" "admin")))
               (λ password hash, inr true)
               (λ user, inr "token") in
  let req := mkRequest (Some "10.0.0.1") None "/login" None in
  let bf := record_failures "10.0.0.1" [1; 2; 3]
              (BruteForceProtection.new 3 1000) in
  let r := authenticate ext 5 5 6 req
             (Some (mkBody (Some "ada") (Some "right")))
             (RateLimiter.new defaultConfig []) bf in
  r.1.1 = AuthNext (mkUser "1" "ada" "hash" "admin") "token"
  ∧ (BruteForceProtection.isAllowed 7 "10.0.0.1" r.2.2).1 = true.
Proof.
  cbv zeta.
  refine (proj2 (X19_authenticate_ignores_the_lock _ 5 5 6 _ _ _)
            _ "10.0.0.1" "ada" "right" _ "token" 7 _ _ _ _ _ _ _ _ _ _);
    try reflexivity; try discriminate; by vm_compute.
Defined.

(** ** The logger *)

Section logger.
Import Logger.

Lemma Js_ind (P : Js → Prop) :
  P JUndefined → P JNull → (∀ b, P (JBoolean b)) → (∀ n, P (JNumber n)) →
  (∀ s, P (JString s)) →
  (∀ entries, Forall (λ entry, P entry.2) entries → P (JObject entries)) →
  (∀ items, Forall P items → P (JArray items)) →
  ∀ d, P d.
Proof.
  intros Hu Hn Hb Hz Hs Ho Ha. fix IH 1. intros [| |b|n|s|entries|items].
  - exact Hu.
  - exact Hn.
  - apply Hb.
  - apply Hz.
  - apply Hs.
  - apply Ho.
    exact ((fix go (l : list (string * Js)) : Forall (λ entry, P entry.2) l :=
              match l with
              | [] => @List.Forall_nil _ _
              | (key, value) :: l' =>
                  @List.Forall_cons _ _ (key, value) l' (IH value) (go l')
              end) entries).
  - apply Ha.
    exact ((fix go (l : list Js) : Forall P l :=
              match l with
              | [] => @List.Forall_nil _ _
              | d :: l' => @List.Forall_cons _ _ d l' (IH d) (go l')
              end) items).
Qed.

Lemma sanitize_object entries :
  sanitize (JObject entries)
  = JObject ((λ entry, (entry.1, sanitize_entry sanitize entry.1 entry.2))
               <$> entries).
Proof.
  simpl. f_equal. induction entries as [|[key value] entries IH]; [done|].
  simpl. by rewrite IH.
Qed.

Lemma sanitize_array items :
  sanitize (JArray items)
  = JObject (imap (λ i value,
                     (pretty i, sanitize_entry sanitize (pretty i) value))
                  items).
Proof.
  simpl. f_equal.
  assert (H : ∀ n,
    (fix go (i : nat) (l : list Js) : list (string * Js) :=
       match l with
       | [] => []
       | value :: l' =>
           (pretty i, sanitize_entry sanitize (pretty i) value) :: go (S i) l'
       end) n items
    = imap (λ i value,
              (pretty (n + i)%nat,
               sanitize_entry sanitize (pretty (n + i)%nat) value)) items).
  { induction items as [|value items IH]; intros n; [done|].
    simpl. rewrite Nat.add_0_r. f_equal. rewrite IH.
    apply imap_ext. intros i x _. simpl. by rewrite Nat.add_succ_r. }
  apply (H 0%nat).
Qed.



Lemma sanitize_entry_redacted key value :
  is_redacted (sanitize value) = true →
  (if isSensitiveField key
   then match sanitize_entry sanitize key value with
        | JString s => bool_decide (s = "[REDACTED]")
        | _ => false
        end
   else is_redacted (sanitize_entry sanitize key value)) = true.
Proof.
  intros Hv. unfold sanitize_entry. by destruct (isSensitiveField key).
Qed.


Lemma sanitize_is_redacted d : is_redacted (sanitize d) = true.
Proof.
  induction d as [| | | | |entries IH|items IH] using Js_ind; try done.
  - rewrite sanitize_object. simpl. apply forallb_forall.
    intros [key value'] Hin. apply in_map_iff in Hin as ([k v] & [= <- <-] & Hin).
    simpl. apply sanitize_entry_redacted.
    rewrite Forall_forall in IH. apply (IH (k, v)). by apply list_elem_of_In.
  - rewrite sanitize_array. simpl. apply forallb_forall.
    intros [key value'] Hin. apply list_elem_of_In in Hin.
    apply elem_of_lookup_imap in Hin as (i & v & [= -> ->] & Hi).
    apply sanitize_entry_redacted.
    rewrite Forall_forall in IH. apply IH.
    by apply list_elem_of_lookup_2 in Hi.
Qed.


End logger.


(** X21.  What the logger prints.  A call is printed exactly when the
    number of its level (ERROR 0, WARN 1, INFO 2, DEBUG 3) is at most the
    configured [logLevel]; what is printed carries the name of the level, the
    message as it was given, which is never sanitized, and the sanitized
    meta object. *)
Theorem X21_log_prints_by_level
    (logLevel : Z) (now : string) (lvl : LogLevel) (msg : string)
    (m : Logger.Js) :
  (Logger.level_number lvl <= logLevel →
   Logger.log logLevel now lvl msg m
   = Some (Logger.mkLogMessage now (Logger.level_name lvl) msg
             (Logger.sanitize m)))
  ∧ (logLevel < Logger.level_number lvl →
     Logger.log logLevel now lvl msg m = None)
  ∧ (∀ out, Logger.log logLevel now lvl msg m = Some out →
       Logger.message out = msg
       ∧ Logger.is_redacted (Logger.meta out) = true).
Proof.
  unfold Logger.log. split_and!.
  - intros Hle. by destruct (Z.leb_spec (Logger.level_number lvl) logLevel);
      [|lia].
  - intros Hlt. by destruct (Z.leb_spec (Logger.level_number lvl) logLevel);
      [lia|].
  - intros out. destruct (Logger.level_number lvl <=? logLevel); [|done].
    intros [= <-]. simpl. split; [done|]. apply sanitize_is_redacted.
Qed.

(** The meta object of a log, with a secret at depth two and in an array. *)
Example sanitize_example :
  Logger.sanitize
    (Logger.JObject
       [("user", Logger.JObject [("name", Logger.JString "ada");
                                 ("apiKey", Logger.JString "k-123")]);
        ("Password", Logger.JString "hunter2");
        ("tries", Logger.JArray [Logger.JNumber 1; Logger.JNumber 2])])
  = Logger.JObject
      [("user", Logger.JObject [("name", Logger.JString "ada");
                                ("apiKey", Logger.JString "[REDACTED]")]);
       ("Password", Logger.JString "[REDACTED]");
       ("tries", Logger.JObject [("0", Logger.JNumber 1);
                                 ("1", Logger.JNumber 2)])].
Proof. by vm_compute. Qed.

(** ** Sliding expiration *)

Lemma session_hook_in_time config n1 n2 n3 req sessionId
    (m : SessionManager.t) s :
  req_cookies req ≫= (λ cookies, cookies !! "sessionId") = Some sessionId →
  sessionId ≠ "" →
  SessionManager.store m !! sessionId = Some s →
  n1 <= expiresAt s → n3 <= n2 + sessionTTL config →
  let s' := set_expiresAt (n2 + sessionTTL config) s in
  (SessionManager_middleware config n1 n2 n3 req m).1 = Some s'
  ∧ SessionManager.store (SessionManager_middleware config n1 n2 n3 req m).2
    = <[sessionId := s']> (SessionManager.store m).
Proof.
  intros Hcookie Hne Hs H1 H3. cbv zeta. unfold SessionManager_middleware.
  rewrite Hcookie. simpl. case_decide; [done|].
  unfold SessionManager.getSession, SessionManager.refreshSession. simpl.
  rewrite (get_valid n1 _ _ s) by (done || lia). simpl.
  rewrite (refresh_present _ _ _ _ s) by done.
  erewrite get_valid; [done|apply lookup_insert_eq|simpl; lia].
Qed.

(** X22.  Requests that keep coming in time keep a session alive.  The
    hook reads the clock three times for a request: when it looks the
    session up, when it refreshes it, and when it looks it up again.  When,
    for each request carrying the cookie of a stored session, the first
    read is not after the expiry that the request before it set (for the
    first request, the expiry the session has) and the third read is not
    after the expiry that the request's own refresh sets (its second read
    plus [sessionTTL]), every one of them gets the session attached, with
    [expiresAt] at the clock read of its own refresh plus [sessionTTL],
    however many requests there are and however old the session is. *)
Theorem X22_requests_in_time_keep_the_session
    (config : SecurityConfig) (req : Request) (sessionId : string)
    (calls : list (Z * Z * Z)) :
  req_cookies req ≫= (λ cookies, cookies !! "sessionId") = Some sessionId →
  sessionId ≠ "" →
  ∀ (m : SessionManager.t) (s : Session),
    SessionManager.store m !! sessionId = Some s →
    in_time (sessionTTL config) (expiresAt s) calls →
    (SessionManager_middleware_seq config calls req m).1
    = (λ call : Z * Z * Z,
         Some (set_expiresAt (call.1.2 + sessionTTL config) s)) <$> calls.
Proof.
  intros Hcookie Hne.
  induction calls as [|[[n1 n2] n3] calls IH]; intros m s Hs Htime; [done|].
  destruct Htime as (H1 & H3 & Htime). simpl in H1, H3, Htime.
  cbn [SessionManager_middleware_seq fmap list_fmap fst snd].
  destruct (session_hook_in_time config n1 n2 n3 req sessionId m s)
    as [Hr Hstore]; [done..|].
  rewrite Hr. f_equal.
  rewrite (IH _ (set_expiresAt (n2 + sessionTTL config) s)).
  - apply list_fmap_ext. intros i call _. simpl.
    by rewrite set_expiresAt_twice.
  - rewrite Hstore. apply lookup_insert_eq.
  - done.
Qed.

Lemma X22_witness :
  let config := {| sessionTTL := 1000; defaultRateLimit := mkRule 60000 10 |} in
  let req := mkRequest None None "/" (Some {[ "sessionId" := "5f2a" ]}) in
  let s := mkSession "5f2a" "u1" 0 1000 ∅ in
  let m := {| SessionManager.store := {[ "5f2a" := s ]};
              SessionManager.rateLimiter := RateLimiter.new config [];
              SessionManager.cleanupInterval := 300000 |} in
  (SessionManager_middleware_seq config
     [(900, 900, 901); (1900, 1900, 1900); (2900, 2901, 2902)] req m).1
  = (λ call : Z * Z * Z, Some (set_expiresAt (call.1.2 + 1000) s))
    <$> [(900, 900, 901); (1900, 1900, 1900); (2900, 2901, 2902)].
Proof.
  cbv zeta.
  refine (X22_requests_in_time_keep_the_session _ _ "5f2a" _ _ _ _ _ _ _).
  - reflexivity.
  - discriminate.
  - reflexivity.
  - simpl. lia.
Defined.
